(** * tinycss.parser: the CSS core-syntax parser, embedded and verified

    A shallow embedding of [tinycss/parser.py]: the token tree
    ([ContainerToken], [FunctionToken]), the grouper [regroup], the
    grammar validators [validate_any] and [validate_block], and the
    recursive-descent parsers from [parse_value] up to [parse_stylesheet].

    Python is dynamically typed and several behaviours of the parser are
    decided by attribute lookups and by which exception class is raised,
    so exceptions are explicit ([outcome]) and so are the few Python
    values that are not tokens ([pyval]). *)

From Stdlib Require Import String Ascii List Bool Arith Lia.
From Stdlib Require Import DecimalString.
Import ListNotations.

Set Warnings "-register-all".

Local Open Scope string_scope.
Local Open Scope list_scope.

(** ** Python values and exceptions *)

(** Plain Python values that a token attribute may hold.  None of them
    has an attribute named [type], [content] or [value]. *)
Inductive pyval : Type :=
| PyNone
| PyStr (s : string)
| PyInt (n : nat)
| PyFloat (repr : string).

(** Modelled from the spec: the class [Token] of [tinycss.tokenizer] is
    not part of the sources.  Following the data model, a token is a
    plain object with a type tag, its exact source text, a decoded value
    and a position; it has no [content] and is not iterable. *)
Record Token : Type := mkToken {
  t_type : string;
  t_as_css : string;
  t_value : pyval;
  t_line : nat;
  t_column : nat
}.

(** The token tree: tokenizer tokens at the leaves, [ContainerToken] and
    [FunctionToken] inside. *)
Inductive node : Type :=
| Leaf (t : Token)
| ContainerToken (type_ css_start css_end : string)
                 (content : list node) (line column : nat)
| FunctionToken (type_ css_start css_end : string) (function_name : pyval)
                (content : list node) (line column : nat).

Inductive exn : Type :=
| ParseError (token : node) (message : string)
| NameError (name : string)
| AttributeError (attribute : string)
| TypeError (message : string)
| StopIteration.

Inductive outcome (A : Type) : Type :=
| Ok (a : A)
| Raise (e : exn).

Arguments Ok {A} a.
Arguments Raise {A} e.

Definition bind {A B : Type} (m : outcome A) (k : A -> outcome B) : outcome B :=
  match m with
  | Ok a => k a
  | Raise e => Raise e
  end.

Notation "x <- m ;; k" := (bind m (fun x => k))
  (at level 61, m at next level, right associativity).
Notation "m ;;; k" := (bind m (fun _ => k))
  (at level 61, right associativity).

(** ** Attribute access *)

Definition type (token : node) : string :=
  match token with
  | Leaf t => t_type t
  | ContainerToken type_ _ _ _ _ _ => type_
  | FunctionToken type_ _ _ _ _ _ _ => type_
  end.

Definition line (token : node) : nat :=
  match token with
  | Leaf t => t_line t
  | ContainerToken _ _ _ _ l _ => l
  | FunctionToken _ _ _ _ _ l _ => l
  end.

Definition column (token : node) : nat :=
  match token with
  | Leaf t => t_column t
  | ContainerToken _ _ _ _ _ c => c
  | FunctionToken _ _ _ _ _ _ c => c
  end.

(** [token.value]: only tokenizer tokens have it; a [FunctionToken]
    stores the name as [function_name]. *)
Definition value (token : node) : outcome pyval :=
  match token with
  | Leaf t => Ok (t_value t)
  | _ => Raise (AttributeError "value")
  end.

(** [token.content]: only the two container classes have it. *)
Definition content (token : node) : outcome (list node) :=
  match token with
  | Leaf _ => Raise (AttributeError "content")
  | ContainerToken _ _ _ c _ _ => Ok c
  | FunctionToken _ _ _ _ c _ _ => Ok c
  end.

(** [''.join(parts)] *)
Fixpoint join (parts : list string) : string :=
  match parts with
  | [] => ""
  | p :: parts' => p ++ join parts'
  end.

(** [ContainerToken.as_css], and the stored text of a leaf. *)
Fixpoint as_css (token : node) : string :=
  match token with
  | Leaf t => t_as_css t
  | ContainerToken _ css_start css_end c _ _ =>
      join ([css_start] ++ map as_css c ++ [css_end])
  | FunctionToken _ css_start css_end _ c _ _ =>
      join ([css_start] ++ map as_css c ++ [css_end])
  end.

(** Serialization of a whole token tree (a sequence of top-level tokens). *)
Definition serialize (tokens : list node) : string :=
  join (map as_css tokens).

(** ** Grouper *)

(** [pairs.get(type_)] *)
Definition pairs (type_ : string) : option string :=
  if type_ =? "FUNCTION" then Some ")"
  else if type_ =? "(" then Some ")"
  else if type_ =? "[" then Some "]"
  else if type_ =? "{" then Some "}"
  else None.

(** [type_ == stop_at], where [stop_at] is [None] at the top level. *)
Definition is_stop (type_ : string) (stop_at : option string) : bool :=
  match stop_at with
  | Some s => type_ =? s
  | None => false
  end.

(** The node built for an opening token and the content collected for it. *)
Definition group (token : Token) (end_ : string) (c : list node) : node :=
  if t_type token =? "FUNCTION"
  then FunctionToken (t_type token) (t_as_css token) end_ (t_value token) c
                     (t_line token) (t_column token)
  else ContainerToken (t_type token) (t_as_css token) end_ c
                      (t_line token) (t_column token).

(** [regroup(tokens, stop_at)] on the shared iterator [tokens]: returns
    what the generator yields and what is left in the iterator when it
    ends.  The recursive call on the rest of the iterator is not
    structural, hence the fuel; [regroup_fuel_total] shows that the fuel
    given by [regroup] never runs out. *)
Fixpoint regroup_fuel (fuel : nat) (tokens : list Token) (stop_at : option string)
  : option (list node * list Token) :=
  match fuel with
  | O => None
  | S fuel' =>
      match tokens with
      | [] => Some ([], [])
      | token :: tokens' =>
          let type_ := t_type token in
          if is_stop type_ stop_at then Some ([], tokens')
          else
            match pairs type_ with
            | None =>
                match regroup_fuel fuel' tokens' stop_at with
                | Some (out, rest) => Some (Leaf token :: out, rest)
                | None => None
                end
            | Some end_ =>
                match regroup_fuel fuel' tokens' (Some end_) with
                | Some (c, rest) =>
                    match regroup_fuel fuel' rest stop_at with
                    | Some (out, rest') => Some (group token end_ c :: out, rest')
                    | None => None
                    end
                | None => None
                end
            end
      end
  end.

Definition regroup (tokens : list Token) : list node :=
  match regroup_fuel (S (length tokens)) tokens None with
  | Some (out, _) => out
  | None => []
  end.

(** ** Small Python idioms *)

(** [x in (a, b, ...)] on strings. *)
Definition mem (x : string) (l : list string) : bool :=
  existsb (String.eqb x) l.

(** [sub in s] on strings: the substring test. *)
Fixpoint is_substring (sub s : string) : bool :=
  prefix sub s ||
  match s with
  | EmptyString => false
  | String _ s' => is_substring sub s'
  end.

Arguments mem : simpl never.
Arguments is_substring : simpl never.

(** Truth value of a list: [if l]. *)
Definition nonempty {A : Type} (l : list A) : bool :=
  match l with
  | [] => false
  | _ :: _ => true
  end.

(** A Python string is a [string] read as a sequence of code points:
    a character of type [ascii] is the code point of its number, so the
    strings of the model are the texts with code points below 256.
    Among these the capital letters are A to Z (65 to 90) and the
    letters 192 to 214 and 216 to 222; [str.lower()] moves each of them
    32 up to its small letter and leaves every other code point as it
    is. *)
Definition is_capital (c : ascii) : bool :=
  let n := nat_of_ascii c in
  ((65 <=? n) && (n <=? 90) || (192 <=? n) && (n <=? 214)
   || (216 <=? n) && (n <=? 222))%nat.

Definition lower_char (c : ascii) : ascii :=
  if is_capital c then ascii_of_nat (nat_of_ascii c + 32) else c.

(** [str.lower()] *)
Fixpoint lower (s : string) : string :=
  match s with
  | EmptyString => EmptyString
  | String c s' => String (lower_char c) (lower s')
  end.

(** [v.lower()]: defined on strings only. *)
Definition py_lower (v : pyval) : outcome string :=
  match v with
  | PyStr s => Ok (lower s)
  | _ => Raise (AttributeError "lower")
  end.

(** ['{}'.format(n)] for a position. *)
Definition format_nat (n : nat) : string :=
  NilEmpty.string_of_uint (Nat.to_uint n).

(** [ParseError(token, reason)]: the constructor computes the message
    from the position of the token. *)
Definition mkParseError (token : node) (reason : string) : exn :=
  ParseError token
    ("Parse error at " ++ format_nat (line token) ++ ":" ++
     format_nat (column token) ++ ", " ++ reason).

(** [UnexpectedToken(...)]: the module defines [UnexpectedTokenError]
    only, so evaluating the name [UnexpectedToken] raises [NameError]
    before any argument is looked at. *)
Definition UnexpectedToken : exn := NameError "UnexpectedToken".

(** ** Grammar validators *)

(** What the validators can be handed: a token, a plain value (as in
    [validate_any(head_token.value, ...)]) or a list of tokens. *)
Inductive pyobj : Type :=
| ONode (token : node)
| OVal (v : pyval)
| OList (tokens : list node).

Definition simple_types : list string :=
  ["S"; "IDENT"; "DIMENSION"; "PERCENTAGE"; "NUMBER"; "URI"; "DELIM";
   "STRING"; "HASH"; "ATKEYWORD"; ":"; "UNICODE-RANGE"; "INCLUDES";
   "DASHMATCH"].

(** [validate_any] on a token. *)
Fixpoint validate_any_node (token : node) (context : string) : outcome unit :=
  let type_ := type token in
  if mem type_ ["FUNCTION"; "("; "["] then
    match token with
    | Leaf _ => Raise (AttributeError "content")
    | ContainerToken _ _ _ c _ _ | FunctionToken _ _ _ _ c _ _ =>
        (fix each (l : list node) : outcome unit :=
           match l with
           | [] => Ok tt
           | t :: l' => validate_any_node t type_ ;;; each l'
           end) c
    end
  else if negb (mem type_ simple_types) then Raise UnexpectedToken
  else Ok tt.

(** [validate_any(token, context)]: the first statement reads
    [token.type], which only a token has. *)
Definition validate_any (token : pyobj) (context : string) : outcome unit :=
  match token with
  | ONode n => validate_any_node n context
  | OVal _ | OList _ => Raise (AttributeError "type")
  end.

(** [validate_block] handed a plain value: a string is iterated
    character by character and each character is asked for its [type];
    the other values are not iterable. *)
Definition validate_block_value (v : pyval) : outcome unit :=
  match v with
  | PyStr EmptyString => Ok tt
  | PyStr (String _ _) => Raise (AttributeError "type")
  | _ => Raise (TypeError "object is not iterable")
  end.

(** The loop of [validate_block] over a list of tokens.  The nested call
    is [validate_block(token.value, context)]: its argument is the
    [value] attribute, which the container classes do not have and which
    is a plain value on a tokenizer token. *)
Fixpoint validate_block_list (tokens : list node) (context : string) : outcome unit :=
  match tokens with
  | [] => Ok tt
  | token :: tokens' =>
      let type_ := type token in
      (if type_ =? "{" then
         v <- value token ;; validate_block_value v
       else if negb (mem type_ [";"; "ATKEYWORD"]) then
         validate_any (ONode token) context
       else Ok tt) ;;;
      validate_block_list tokens' context
  end.

(** [validate_block(tokens, context)]: [for token in tokens] needs an
    iterable; a token object is not one. *)
Definition validate_block (tokens : pyobj) (context : string) : outcome unit :=
  match tokens with
  | OList l => validate_block_list l context
  | OVal v => validate_block_value v
  | ONode _ => Raise (TypeError "object is not iterable")
  end.

(** ** Values and declarations *)

Definition declaration : Type := string * list node.

(** The scan of [parse_value]. *)
Fixpoint parse_value_scan (acc : list node) (tokens : list node) : outcome (list node) :=
  match tokens with
  | [] => Ok acc
  | token :: tokens' =>
      let type_ := type token in
      if nonempty acc || negb (type_ =? "S") then
        (if type_ =? "{" then validate_block (ONode token) "property value"
         else validate_any (ONode token) "property value") ;;;
        parse_value_scan (acc ++ [token]) tokens'
      else parse_value_scan acc tokens'
  end.

(** [while content and content[-1].type == 'S': content.pop()]; at most
    [n] iterations, and [length content] of them are enough. *)
Fixpoint pop_trailing (n : nat) (acc : list node) : list node :=
  match n with
  | O => acc
  | S n' =>
      match List.rev acc with
      | last :: _ =>
          if type last =? "S" then pop_trailing n' (removelast acc) else acc
      | [] => acc
      end
  end.

Definition parse_value (tokens : list node) : outcome (list node) :=
  acc <- parse_value_scan [] tokens ;;
  Ok (pop_trailing (length acc) acc).

(** The [for ... else] loop of [parse_declaration] that looks for [':'].
    [token] is the loop variable as the previous statement left it;
    the result is the [':'] token and the rest of the iterator. *)
Fixpoint find_colon (token : node) (tokens : list node) : outcome (node * list node) :=
  match tokens with
  | [] => Raise (mkParseError token "expected ':'")
  | t :: tokens' =>
      if type t =? ":" then Ok (t, tokens')
      else if negb (type t =? "S") then Raise UnexpectedToken
      else find_colon t tokens'
  end.

Definition parse_declaration (tokens : list node) : outcome declaration :=
  match tokens with
  | [] => Raise StopIteration
  | token :: tokens' =>
      if type token =? "IDENT" then
        v <- value token ;;
        property_name <- py_lower v ;;
        found <- find_colon token tokens' ;;
        let '(token', rest) := found in
        val <- parse_value rest ;;
        if nonempty val then Ok (property_name, val)
        else Raise (mkParseError token' "expected a property value")
      else Raise UnexpectedToken
  end.

(** The splitting loop of [parse_declaration_list]. *)
Fixpoint split_parts (parts : list (list node)) (this_part : list node)
         (tokens : list node) : list (list node) :=
  match tokens with
  | [] => if nonempty this_part then parts ++ [this_part] else parts
  | token :: tokens' =>
      let type_ := type token in
      if (type_ =? ";") && nonempty this_part then
        split_parts (parts ++ [this_part]) [] tokens'
      else if nonempty this_part || negb (type_ =? "S") then
        split_parts parts (this_part ++ [token]) tokens'
      else split_parts parts this_part tokens'
  end.

(** The [try ... except ParseError] loop of [parse_declaration_list]. *)
Fixpoint parse_parts (declarations : list declaration) (errors : list exn)
         (parts : list (list node)) : outcome (list declaration * list exn) :=
  match parts with
  | [] => Ok (declarations, errors)
  | part :: parts' =>
      match parse_declaration part with
      | Ok d => parse_parts (declarations ++ [d]) errors parts'
      | Raise (ParseError t m) =>
          parse_parts declarations (errors ++ [ParseError t m]) parts'
      | Raise e => Raise e
      end
  end.

Definition parse_declaration_list (tokens : list node)
  : outcome (list declaration * list exn) :=
  parse_parts [] [] (split_parts [] [] tokens).

(** ** Statements *)

(** An entry of the rules list: the tuple [(at_keyword, head, body)] of
    an at-rule or the tuple [(None, selector, declarations)] of a
    ruleset. *)
Inductive rule : Type :=
| AtRule (at_keyword : string) (head : list node) (body : option node)
| Ruleset (selector : node) (declarations : list declaration).

(** First component of the tuple; [None] is Python's [None]. *)
Definition first_component (r : rule) : option string :=
  match r with
  | AtRule at_keyword _ _ => Some at_keyword
  | Ruleset _ _ => None
  end.

(** [for head_token in head: validate_any(head_token.value, 'at-rule head')] *)
Fixpoint validate_head (head : list node) : outcome unit :=
  match head with
  | [] => Ok tt
  | head_token :: head' =>
      v <- value head_token ;;
      validate_any (OVal v) "at-rule head" ;;;
      validate_head head'
  end.

(** The loop of [parse_at_rule] over the shared iterator.  The second
    component is what is left in the iterator.  When the iterator runs
    out the function ends without a [return] statement: the result is
    Python's [None], written [Ok None]. *)
Fixpoint parse_at_rule_loop (at_keyword : string) (head : list node)
         (tokens : list node) : outcome (option rule) * list node :=
  match tokens with
  | [] => (Ok None, [])
  | token :: tokens' =>
      if is_substring (type token) "{;" then
        (validate_head head ;;;
         let body := if type token =? "{" then Some token else None in
         Ok (Some (AtRule at_keyword head body)),
         tokens')
      else if nonempty head || negb (type token =? "S") then
        parse_at_rule_loop at_keyword (head ++ [token]) tokens'
      else parse_at_rule_loop at_keyword head tokens'
  end.

Definition parse_at_rule (at_keyword_token : node) (tokens : list node)
  : outcome (option rule) * list node :=
  match v <- value at_keyword_token ;; py_lower v with
  | Ok at_keyword => parse_at_rule_loop at_keyword [] tokens
  | Raise e => (Raise e, tokens)
  end.

(** [for selector_token in selector_parts: validate_any(selector_token, 'selector')] *)
Fixpoint validate_selector (selector_parts : list node) : outcome unit :=
  match selector_parts with
  | [] => Ok tt
  | selector_token :: selector_parts' =>
      validate_any (ONode selector_token) "selector" ;;;
      validate_selector selector_parts'
  end.

(** The loop of [parse_ruleset] over [chain([first_token], tokens)].
    As for the at-rule, [Ok None] is the [None] returned when the
    iterator runs out before a ['{'] token. *)
Fixpoint parse_ruleset_loop (selector_parts : list node) (tokens : list node)
  : outcome (option (node * list declaration * list exn)) * list node :=
  match tokens with
  | [] => (Ok None, [])
  | token :: tokens' =>
      if type token =? "{" then
        (validate_selector selector_parts ;;;
         let start := match selector_parts with
                      | s :: _ => s
                      | [] => token
                      end in
         let selector := ContainerToken "SELECTOR" "" "" selector_parts
                                        (line start) (column start) in
         c <- content token ;;
         r <- parse_declaration_list c ;;
         let '(declarations, errors) := r in
         Ok (Some (selector, declarations, errors)),
         tokens')
      else parse_ruleset_loop (selector_parts ++ [token]) tokens'
  end.

Definition parse_ruleset (first_token : node) (tokens : list node)
  : outcome (option (node * list declaration * list exn)) * list node :=
  parse_ruleset_loop [] (first_token :: tokens).

(** ** Stylesheet *)

(** The rules list holds whatever [parse_at_rule] returned, so an entry
    is [Some] tuple or Python's [None]. *)
Definition stylesheet : Type := list (option rule) * list exn.

(** The loop of [parse_stylesheet].  [tokens] is an iterator (as [parse]
    passes it), shared with the two delegates, which leave it where they
    stopped; hence the fuel, which [parse_stylesheet] gives in sufficient
    amount (see [parse_stylesheet_total]).  Only [ParseError] is caught. *)
Fixpoint parse_stylesheet_loop (fuel : nat) (rules : list (option rule))
         (errors : list exn) (tokens : list node) : option (outcome stylesheet) :=
  match fuel with
  | O => None
  | S fuel' =>
      match tokens with
      | [] => Some (Ok (rules, errors))
      | token :: tokens' =>
          if negb (mem (type token) ["S"; "CDO"; "CDC"]) then
            if type token =? "ATKEYWORD" then
              match parse_at_rule token tokens' with
              | (Ok r, rest) =>
                  parse_stylesheet_loop fuel' (rules ++ [r]) errors rest
              | (Raise (ParseError t m), rest) =>
                  parse_stylesheet_loop fuel' rules (errors ++ [ParseError t m]) rest
              | (Raise e, _) => Some (Raise e)
              end
            else
              match parse_ruleset token tokens' with
              | (Ok (Some (selector, declarations, rule_errors)), rest) =>
                  parse_stylesheet_loop fuel'
                    (rules ++ [Some (Ruleset selector declarations)])
                    (errors ++ rule_errors) rest
              | (Ok None, _) =>
                  Some (Raise (TypeError "cannot unpack non-iterable NoneType object"))
              | (Raise (ParseError t m), rest) =>
                  parse_stylesheet_loop fuel' rules (errors ++ [ParseError t m]) rest
              | (Raise e, _) => Some (Raise e)
              end
          else parse_stylesheet_loop fuel' rules errors tokens'
      end
  end.

Definition parse_stylesheet (tokens : list node) : option (outcome stylesheet) :=
  parse_stylesheet_loop (S (length tokens)) [] [] tokens.

(** [parse] without the tokenizer: from the flat token sequence. *)
Definition parse_tokens (tokens : list Token) : option (outcome stylesheet) :=
  parse_stylesheet (regroup tokens).

(** ** Sample inputs

    Modelled from the spec: the tokenizer is not part of the sources, so
    the token sequence of a source text is written out, following the
    CSS 2.1 tokenization the parser refers to (type tags as used by the
    parser, token text as in the source, one line, columns from 1). *)

Definition tk (type_ css : string) (column : nat) : Token :=
  mkToken type_ css (PyStr css) 1 column.

Definition num (css : string) (n : nat) (column : nat) : Token :=
  mkToken "NUMBER" css (PyInt n) 1 column.

(** [a { color: red] *)
Definition css_unterminated : list Token :=
  [tk "IDENT" "a" 1; tk "S" " " 2; tk "{" "{" 3; tk "S" " " 4;
   tk "IDENT" "color" 5; tk ":" ":" 10; tk "S" " " 11; tk "IDENT" "red" 12].

(** [a:1; b:@; c:3;], the lone [@] being a DELIM token. *)
Definition css_three_declarations : list Token :=
  [tk "IDENT" "a" 1; tk ":" ":" 2; num "1" 1 3; tk ";" ";" 4; tk "S" " " 5;
   tk "IDENT" "b" 6; tk ":" ":" 7; tk "DELIM" "@" 8; tk ";" ";" 9; tk "S" " " 10;
   tk "IDENT" "c" 11; tk ":" ":" 12; num "3" 3 13; tk ";" ";" 14].

(** [a:1; b; c:3;] *)
Definition css_missing_colon : list Token :=
  [tk "IDENT" "a" 1; tk ":" ":" 2; num "1" 1 3; tk ";" ";" 4; tk "S" " " 5;
   tk "IDENT" "b" 6; tk ";" ";" 7; tk "S" " " 8;
   tk "IDENT" "c" 9; tk ":" ":" 10; num "3" 3 11; tk ";" ";" 12].

(** [;  ; a:1] *)
Definition css_empty_declarations : list Token :=
  [tk ";" ";" 1; tk "S" "  " 2; tk ";" ";" 4; tk "S" " " 5;
   tk "IDENT" "a" 6; tk ":" ":" 7; num "1" 1 8].

(** [a{b:f(c]: a block and a function, both left open. *)
Definition css_open_nested : list Token :=
  [tk "IDENT" "a" 1; tk "{" "{" 2; tk "IDENT" "b" 3; tk ":" ":" 4;
   mkToken "FUNCTION" "f(" (PyStr "f") 1 5; tk "IDENT" "c" 7].

(** [((((a))))] *)
Definition css_nested : list Token :=
  [tk "(" "(" 1; tk "(" "(" 2; tk "(" "(" 3; tk "(" "(" 4; tk "IDENT" "a" 5;
   tk ")" ")" 6; tk ")" ")" 7; tk ")" ")" 8; tk ")" ")" 9].

(** [@import 'x.css';] *)
Definition css_import : list Token :=
  [tk "ATKEYWORD" "@import" 1; tk "S" " " 8;
   mkToken "STRING" "'x.css'" (PyStr "x.css") 1 9; tk ";" ";" 16].

(** [@media screen] *)
Definition css_unterminated_at_rule : list Token :=
  [tk "ATKEYWORD" "@media" 1; tk "S" " " 7; tk "IDENT" "screen" 8].

(** [a:{}] *)
Definition css_block_value : list Token :=
  [tk "IDENT" "a" 1; tk ":" ":" 2; tk "{" "{" 3; tk "}" "}" 4].

(** [] { }]: a ruleset whose selector is an unmatched closing bracket. *)
Definition css_bad_selector : list Token :=
  [tk "]" "]" 1; tk "S" " " 2; tk "{" "{" 3; tk "S" " " 4; tk "}" "}" 5].

(** The block content [COLOR:Red;ECOLE:1], the second name starting
    with the capital E with acute accent, code point 201. *)
Definition css_capital_names : list Token :=
  [tk "IDENT" "COLOR" 1; tk ":" ":" 6; tk "IDENT" "Red" 7; tk ";" ";" 10;
   tk "IDENT" (String (ascii_of_nat 201) "COLE") 11; tk ":" ":" 16;
   num "1" 1 17].

(** [a{} @X] *)
Definition css_ruleset_then_at_rule : list Token :=
  [tk "IDENT" "a" 1; tk "{" "{" 2; tk "}" "}" 3; tk "S" " " 4;
   tk "ATKEYWORD" "@X" 5].

(** ** Specification-side definitions *)

(** The source text of a token sequence: the tokens keep their exact
    source text, so the text is their concatenation. *)
Definition source (tokens : list Token) : string :=
  join (map t_as_css tokens).

Definition closers : list string := [")"; "]"; "}"].

(** The closing tokens carry their own character as text. *)
Definition closers_verbatim (tokens : list Token) : Prop :=
  Forall (fun t => mem (t_type t) closers = true -> t_as_css t = t_type t) tokens.

(** The closers of the containers that are still open when the input
    ends, innermost first; [stack] holds those open at the start. *)
Fixpoint unclosed (stack : list string) (tokens : list Token) : list string :=
  match tokens with
  | [] => stack
  | token :: tokens' =>
      if is_stop (t_type token) (hd_error stack) then unclosed (tl stack) tokens'
      else
        match pairs (t_type token) with
        | Some end_ => unclosed (end_ :: stack) tokens'
        | None => unclosed stack tokens'
        end
  end.

(** The content of a container holds no token of the container's own
    closing type, and the stored closing text is that closer. *)
Definition children_ok (type_ css_end : string) (c : list node) : bool :=
  match pairs type_ with
  | Some end_ => (end_ =? css_end) && forallb (fun t => negb (type t =? end_)) c
  | None => false
  end.

Fixpoint well_nested (token : node) : bool :=
  match token with
  | Leaf _ => true
  | ContainerToken type_ _ css_end c _ _ =>
      children_ok type_ css_end c && forallb well_nested c
  | FunctionToken type_ _ css_end _ c _ _ =>
      children_ok type_ css_end c && forallb well_nested c
  end.

(** A part is recoverable when [parse_declaration] returns on it or
    raises [ParseError], the one exception the list parser catches. *)
Definition recoverable (part : list node) : bool :=
  match parse_declaration part with
  | Ok _ => true
  | Raise (ParseError _ _) => true
  | Raise _ => false
  end.

Definition valid_declarations (parts : list (list node)) : list declaration :=
  flat_map (fun part => match parse_declaration part with
                        | Ok d => [d]
                        | Raise _ => []
                        end) parts.

Definition parse_errors (parts : list (list node)) : list exn :=
  flat_map (fun part => match parse_declaration part with
                        | Raise (ParseError t m) => [ParseError t m]
                        | _ => []
                        end) parts.

(** The block [a:1; b:?; c:3;] with an arbitrary token in place of [?]. *)
Definition block_with (token : Token) : list node :=
  [Leaf (tk "IDENT" "a" 1); Leaf (tk ":" ":" 2); Leaf (num "1" 1 3);
   Leaf (tk ";" ";" 4); Leaf (tk "S" " " 5);
   Leaf (tk "IDENT" "b" 6); Leaf (tk ":" ":" 7); Leaf token;
   Leaf (tk ";" ";" 9); Leaf (tk "S" " " 10);
   Leaf (tk "IDENT" "c" 11); Leaf (tk ":" ":" 12); Leaf (num "3" 3 13);
   Leaf (tk ";" ";" 14)].

(** [depth] pairs of parentheses around the identifier [a], from
    [column] on. *)
Fixpoint nested_source (depth column : nat) : list Token :=
  match depth with
  | O => [tk "IDENT" "a" column]
  | S d =>
      tk "(" "(" column :: nested_source d (S column)
        ++ [tk ")" ")" (column + 2 * d + 2)]
  end.

Fixpoint nested_tree (depth column : nat) : node :=
  match depth with
  | O => Leaf (tk "IDENT" "a" column)
  | S d => ContainerToken "(" "(" ")" [nested_tree d (S column)] 1 column
  end.

(** No token of the list ends the head of an at-rule. *)
Definition no_terminator (tokens : list node) : bool :=
  forallb (fun t => negb (is_substring (type t) "{;")) tokens.

(** An entry as the docstring of [parse_stylesheet] describes it: a
    tuple whose first component is a lower-case keyword for an at-rule
    and [None] for a ruleset. *)
Definition is_rule_tuple (entry : option rule) : Prop :=
  match entry with
  | Some (AtRule at_keyword head body) =>
      first_component (AtRule at_keyword head body) = Some at_keyword /\
      lower at_keyword = at_keyword
  | Some (Ruleset selector declarations) =>
      first_component (Ruleset selector declarations) = None
  | None => False
  end.

(** The same, but for the entries that are [None]. *)
Definition is_rule_tuple_or_none (entry : option rule) : Prop :=
  match entry with
  | Some r => is_rule_tuple (Some r)
  | None => True
  end.

(** *** Shape of a grouped tree *)

Definition is_opener (type_ : string) : bool :=
  match pairs type_ with
  | Some _ => true
  | None => false
  end.

Definition is_closer (type_ : string) : bool := mem type_ closers.

(** No opening token is left as a leaf; a [FunctionToken] stands exactly
    for a FUNCTION token, a [ContainerToken] for one of the brackets. *)
Fixpoint shaped (token : node) : bool :=
  match token with
  | Leaf t => negb (is_opener (t_type t))
  | ContainerToken type_ _ _ c _ _ =>
      mem type_ ["("; "["; "{"] && forallb shaped c
  | FunctionToken type_ _ _ _ c _ _ =>
      (type_ =? "FUNCTION") && forallb shaped c
  end.

(** What a token is known by: type, text and position. *)
Definition token_info (t : Token) : string * string * nat * nat :=
  (t_type t, t_as_css t, t_line t, t_column t).

(** The tokens of a tree in document order; a container stands for its
    opening token. *)
Fixpoint preorder (token : node) : list (string * string * nat * nat) :=
  match token with
  | Leaf t => [token_info t]
  | ContainerToken type_ css_start _ c l col =>
      (type_, css_start, l, col) :: flat_map preorder c
  | FunctionToken type_ css_start _ _ c l col =>
      (type_, css_start, l, col) :: flat_map preorder c
  end.

Definition info_not_closer (i : string * string * nat * nat) : bool :=
  negb (is_closer (fst (fst (fst i)))).

(** The leaf tokens of a tree, in document order. *)
Fixpoint leaves (token : node) : list Token :=
  match token with
  | Leaf t => [t]
  | ContainerToken _ _ _ c _ _ => flat_map leaves c
  | FunctionToken _ _ _ _ c _ _ => flat_map leaves c
  end.

(** A [{]-container, at any depth. *)
Fixpoint has_brace (token : node) : bool :=
  match token with
  | Leaf _ => false
  | ContainerToken type_ _ _ c _ _ => (type_ =? "{") || existsb has_brace c
  | FunctionToken type_ _ _ _ c _ _ => (type_ =? "{") || existsb has_brace c
  end.

(** *** White space at the ends of a token list *)

Fixpoint lstrip (tokens : list node) : list node :=
  match tokens with
  | [] => []
  | t :: tokens' => if type t =? "S" then lstrip tokens' else tokens
  end.

Definition rstrip (tokens : list node) : list node :=
  List.rev (lstrip (List.rev tokens)).

Definition strip (tokens : list node) : list node :=
  rstrip (lstrip tokens).

Definition is_space (token : node) : Prop := type token = "S".

(** *** Exceptions *)

(** The exceptions of a programming slip, as opposed to [ParseError]
    and to the end of an iterator. *)
Definition is_slip (e : exn) : bool :=
  match e with
  | NameError _ | AttributeError _ | TypeError _ => true
  | ParseError _ _ | StopIteration => false
  end.

Definition is_parse_error (e : exn) : bool :=
  match e with
  | ParseError _ _ => true
  | _ => false
  end.

(** What [parse_value] requires of a token it collects. *)
Definition value_token_ok (token : node) : Prop :=
  type token <> "{" /\ validate_any_node token "property value" = Ok tt.

(** *** Results of the stylesheet parser *)

(** A result with rules and errors put in front of its own. *)
Definition prepend (rules : list (option rule)) (errors : list exn)
           (r : option (outcome stylesheet)) : option (outcome stylesheet) :=
  match r with
  | Some (Ok (rules', errors')) => Some (Ok (rules ++ rules', errors ++ errors'))
  | other => other
  end.

Definition is_skipped (token : node) : Prop :=
  mem (type token) ["S"; "CDO"; "CDC"] = true.

(** *** The "any" production on a tree *)

(** The loop [for token in token.content: validate_any(token, type_)]. *)
Fixpoint validate_each (tokens : list node) (context : string) : outcome unit :=
  match tokens with
  | [] => Ok tt
  | t :: tokens' => validate_any_node t context ;;; validate_each tokens' context
  end.

Definition simple_leaf (t : Token) : bool := mem (t_type t) simple_types.

(** A tree without curly block whose leaves all have a simple type. *)
Definition plain (token : node) : Prop :=
  has_brace token = false /\ forallb simple_leaf (leaves token) = true.

(** *** Declarations and their errors *)

(** No character of the string is a capital letter. *)
Definition no_capital (s : string) : bool :=
  forallb (fun c => negb (is_capital c)) (list_ascii_of_string s).

(** A declaration as [parse_declaration] documents it: a lower-case
    name, that is one without capital letter, which [str.lower()]
    leaves as it is, and a value that is not empty and has no white
    space at its ends. *)
Definition well_formed_declaration (d : declaration) : Prop :=
  no_capital (fst d) = true /\ lower (fst d) = fst d /\ snd d <> [] /\
  (forall t, hd_error (snd d) = Some t -> type t <> "S") /\
  (forall t, hd_error (List.rev (snd d)) = Some t -> type t <> "S").

(** A [ParseError] of [parse_declaration], raised on one of [tokens]:
    on the last token before the end when no [:] was found, on the [:]
    when no value follows it. *)
Definition located_error (tokens : list node) (e : exn) : Prop :=
  exists t reason,
    In t tokens /\ e = mkParseError t reason /\
    (type t <> ":" /\ reason = "expected ':'" \/
     type t = ":" /\ reason = "expected a property value").

Definition is_semicolon (token : node) : bool := type token =? ";".

(** *** Statements *)

Definition is_block (token : node) : bool := type token =? "{".

Definition is_terminator (token : node) : bool := is_substring (type token) "{;".

(** The selector container [parse_ruleset] builds for the tokens read
    before [block]. *)
Definition selector_of (selector_parts : list node) (block : node) : node :=
  ContainerToken "SELECTOR" "" "" selector_parts
                 (line (hd block selector_parts)) (column (hd block selector_parts)).

(** The body of an at-rule that ends with [terminator]. *)
Definition body_of (terminator : node) : option node :=
  if type terminator =? "{" then Some terminator else None.

(** A ruleset entry made from a block of [tokens]: the selector holds
    tokens of [tokens] that [validate_any] accepts, and the declarations
    are those of the content of the block. *)
Definition ruleset_of (tokens : list node) (entry : option rule) : Prop :=
  match entry with
  | Some (Ruleset selector declarations) =>
      exists selector_parts block c errors,
        selector = selector_of selector_parts block /\
        incl selector_parts tokens /\
        Forall (fun t => validate_any_node t "selector" = Ok tt) selector_parts /\
        In block tokens /\ is_block block = true /\ content block = Ok c /\
        parse_declaration_list c = Ok (declarations, errors)
  | _ => True
  end.

(** An error recorded for a declaration of a block of [tokens]. *)
Definition error_of (tokens : list node) (e : exn) : Prop :=
  exists block c,
    In block tokens /\ is_block block = true /\ content block = Ok c /\
    located_error c e.

(** *** Well-bracketed input *)

(** [grouped stop_at tokens out]: in [tokens] every opening token has
    its closing token, no token outside of a pair has the type
    [stop_at], and [out] is the tree the pairs describe. *)
Inductive grouped (stop_at : option string) : list Token -> list node -> Prop :=
| grouped_nil : grouped stop_at [] []
| grouped_leaf (t : Token) (tokens : list Token) (out : list node) :
    is_stop (t_type t) stop_at = false ->
    pairs (t_type t) = None ->
    grouped stop_at tokens out ->
    grouped stop_at (t :: tokens) (Leaf t :: out)
| grouped_pair (opener closer : Token) (end_ : string)
               (body tokens : list Token) (c out : list node) :
    is_stop (t_type opener) stop_at = false ->
    pairs (t_type opener) = Some end_ ->
    grouped (Some end_) body c ->
    t_type closer = end_ ->
    grouped stop_at tokens out ->
    grouped stop_at (opener :: body ++ closer :: tokens) (group opener end_ c :: out).

(** *** Parts of a block *)

(** A part as the splitting loop of [parse_declaration_list] makes it:
    it is not empty, it does not start with white space and it holds no
    [;] after its first token. *)
Definition part_ok (part : list node) : Prop :=
  match part with
  | [] => False
  | first :: others =>
      type first <> "S" /\ Forall (fun t => is_semicolon t = false) others
  end.

(** [a { b }] *)
Definition css_bad_declaration : list Token :=
  [tk "IDENT" "a" 1; tk "S" " " 2; tk "{" "{" 3; tk "S" " " 4;
   tk "IDENT" "b" 5; tk "S" " " 6; tk "}" "}" 7].

(** ** Strings *)

Lemma append_assoc (a b c : string) : ((a ++ b) ++ c = a ++ (b ++ c))%string.
Proof. induction a as [|x a IH]; simpl; [reflexivity | now rewrite IH]. Qed.

Lemma append_empty_r (a : string) : (a ++ "" = a)%string.
Proof. induction a as [|x a IH]; simpl; [reflexivity | now rewrite IH]. Qed.

Lemma join_app (l1 l2 : list string) :
  join (l1 ++ l2) = (join l1 ++ join l2)%string.
Proof.
  induction l1 as [|x l1 IH]; simpl; [reflexivity|].
  now rewrite IH, append_assoc.
Qed.

Lemma as_css_group (token : Token) (end_ : string) (c : list node) :
  as_css (group token end_ c) = (t_as_css token ++ serialize c ++ end_)%string.
Proof.
  unfold group, serialize.
  destruct (t_type token =? "FUNCTION"); simpl;
    now rewrite join_app; simpl; rewrite append_empty_r.
Qed.

Lemma type_group (token : Token) (end_ : string) (c : list node) :
  type (group token end_ c) = t_type token.
Proof. unfold group. now destruct (t_type token =? "FUNCTION"). Qed.

Lemma pairs_closer (type_ end_ : string) :
  pairs type_ = Some end_ -> mem end_ closers = true.
Proof.
  unfold pairs.
  repeat match goal with
         | |- context [if ?b then _ else _] => destruct b
         end; intros H; inversion H; reflexivity.
Qed.

(** ** The grouper terminates, on every input *)

Ltac regroup_cases H token tokens stop_at n :=
  simpl in H;
  destruct (is_stop (t_type token) stop_at) eqn:Hstop;
  [ | destruct (pairs (t_type token)) as [end_|] eqn:Hpairs;
      [ destruct (regroup_fuel n tokens (Some end_)) as [[c rest1]|] eqn:Hin;
        [ destruct (regroup_fuel n rest1 stop_at) as [[out' rest']|] eqn:Hnext;
          [ | discriminate H ]
        | discriminate H ]
      | destruct (regroup_fuel n tokens stop_at) as [[out' rest']|] eqn:Hnext;
        [ | discriminate H ] ] ];
  inversion H; subst; clear H.

Lemma regroup_fuel_length (n : nat) :
  forall tokens stop_at out rest,
    regroup_fuel n tokens stop_at = Some (out, rest) ->
    length rest <= length tokens.
Proof.
  induction n as [|n IH]; intros tokens stop_at out rest H; [discriminate|].
  destruct tokens as [|token tokens]; [inversion H; auto|].
  regroup_cases H token tokens stop_at n; simpl.
  - lia.
  - apply IH in Hin. apply IH in Hnext. lia.
  - apply IH in Hnext. lia.
Qed.

Lemma regroup_fuel_enough (n : nat) :
  forall tokens stop_at,
    length tokens < n ->
    exists out rest, regroup_fuel n tokens stop_at = Some (out, rest).
Proof.
  induction n as [|n IH]; intros tokens stop_at Hlen; [lia|].
  destruct tokens as [|token tokens]; simpl; [eauto|].
  simpl in Hlen.
  destruct (is_stop (t_type token) stop_at); [eauto|].
  destruct (pairs (t_type token)) as [end_|].
  - destruct (IH tokens (Some end_)) as (c & rest1 & Hin); [lia|].
    rewrite Hin.
    pose proof (regroup_fuel_length _ _ _ _ _ Hin) as Hle.
    destruct (IH rest1 stop_at) as (out' & rest' & Hnext); [lia|].
    rewrite Hnext. eauto.
  - destruct (IH tokens stop_at) as (out' & rest' & Hnext); [lia|].
    rewrite Hnext. eauto.
Qed.

(** The fuel [regroup] gives is enough: the result is that of the
    generator, never the default. *)
Lemma regroup_fuel_total (tokens : list Token) :
  exists rest, regroup_fuel (S (length tokens)) tokens None = Some (regroup tokens, rest).
Proof.
  unfold regroup.
  destruct (regroup_fuel_enough (S (length tokens)) tokens None) as (out & rest & H);
    [lia|].
  rewrite H. eauto.
Qed.

(** More fuel does not change the result. *)
Lemma regroup_fuel_mono (n : nat) :
  forall m tokens stop_at r,
    regroup_fuel n tokens stop_at = Some r -> n <= m ->
    regroup_fuel m tokens stop_at = Some r.
Proof.
  induction n as [|n IH]; intros m tokens stop_at r H Hle; [discriminate|].
  destruct m as [|m]; [lia|].
  destruct tokens as [|token tokens]; [exact H|].
  destruct r as [out rest].
  regroup_cases H token tokens stop_at n; simpl; rewrite Hstop.
  - reflexivity.
  - rewrite Hpairs, (IH m _ _ _ Hin), (IH m _ _ _ Hnext) by lia. reflexivity.
  - rewrite Hpairs, (IH m _ _ _ Hnext) by lia. reflexivity.
Qed.

(** At the top level the generator ends only when the iterator is empty. *)
Lemma regroup_fuel_top_rest (n : nat) :
  forall tokens out rest,
    regroup_fuel n tokens None = Some (out, rest) -> rest = [].
Proof.
  induction n as [|n IH]; intros tokens out rest H; [discriminate|].
  destruct tokens as [|token tokens]; [now inversion H|].
  regroup_cases H token tokens (@None string) n.
  - discriminate.
  - eapply IH; eassumption.
  - eapply IH; eassumption.
Qed.

Lemma regroup_fuel_rest_Forall (P : Token -> Prop) (n : nat) :
  forall tokens stop_at out rest,
    regroup_fuel n tokens stop_at = Some (out, rest) ->
    Forall P tokens -> Forall P rest.
Proof.
  induction n as [|n IH]; intros tokens stop_at out rest H HP; [discriminate|].
  destruct tokens as [|token tokens]; [now inversion H|].
  inversion HP; subst.
  regroup_cases H token tokens stop_at n; eauto.
Qed.

(** ** Nesting invariant of the grouper *)

(** Whatever [regroup] yields is well nested, and nothing it yields has
    the type it was told to stop at. *)
Lemma regroup_fuel_well_nested (n : nat) :
  forall tokens stop_at out rest,
    regroup_fuel n tokens stop_at = Some (out, rest) ->
    forallb well_nested out = true /\
    forallb (fun t => negb (is_stop (type t) stop_at)) out = true.
Proof.
  induction n as [|n IH]; intros tokens stop_at out rest H; [discriminate|].
  destruct tokens as [|token tokens]; [inversion H; auto|].
  regroup_cases H token tokens stop_at n; simpl.
  - auto.
  - destruct (IH _ _ _ _ Hin) as [Hc1 Hc2].
    destruct (IH _ _ _ _ Hnext) as [Ho1 Ho2].
    rewrite type_group, Hstop, Ho1, Ho2. simpl.
    split; [|reflexivity].
    rewrite andb_true_r.
    unfold group.
    destruct (t_type token =? "FUNCTION"); simpl;
      unfold children_ok; rewrite Hpairs, String.eqb_refl, Hc1; simpl in *;
      rewrite Hc2; reflexivity.
  - destruct (IH _ _ _ _ Hnext) as [Ho1 Ho2].
    rewrite Hstop, Ho1, Ho2. auto.
Qed.

(** ** Serialization of the grouped tree *)

(** The text of the tokens and of the closers pending after them is the
    text of what [regroup] yields, then the closer it stopped at (read or
    implied), then the same for the tokens it left. *)
Lemma regroup_fuel_as_css (n : nat) :
  forall tokens stack out rest,
    regroup_fuel n tokens (hd_error stack) = Some (out, rest) ->
    closers_verbatim tokens ->
    Forall (fun e => mem e closers = true) stack ->
    (source tokens ++ join (unclosed stack tokens)
     = serialize out ++ join (firstn 1 stack) ++
       source rest ++ join (unclosed (tl stack) rest))%string.
Proof.
  induction n as [|n IH]; intros tokens stack out rest H Hv Hs; [discriminate|].
  destruct tokens as [|token tokens].
  - inversion H; subst. destruct stack as [|e stack]; simpl; [reflexivity|].
    now rewrite append_empty_r.
  - inversion Hv as [|? ? Htok Hv']; subst.
    regroup_cases H token tokens (hd_error stack) n;
      unfold source, serialize in *; simpl; rewrite Hstop.
    + destruct stack as [|e stack]; [discriminate|].
      simpl in *. apply String.eqb_eq in Hstop. subst e.
      inversion Hs; subst.
      rewrite Htok by assumption.
      now rewrite append_empty_r, !append_assoc.
    + rewrite Hpairs, as_css_group.
      pose proof (IH tokens (end_ :: stack) c rest1 Hin Hv'
                     (Forall_cons _ (pairs_closer _ _ Hpairs) Hs)) as E1.
      pose proof (IH rest1 stack out' rest Hnext
                     (regroup_fuel_rest_Forall _ _ _ _ _ _ Hin Hv') Hs) as E2.
      unfold source, serialize in *; simpl in E1.
      rewrite append_empty_r in E1.
      rewrite !append_assoc, E1.
      do 3 f_equal. exact E2.
    + rewrite Hpairs, !append_assoc. f_equal.
      exact (IH tokens stack out' rest Hnext Hv' Hs).
Qed.

(** ** An opener without its closer *)

(** A run of tokens with no opener and no [end_] is yielded as it is,
    and the iterator is then empty. *)
Lemma regroup_fuel_flat (end_ : string) (body : list Token) :
  Forall (fun t => pairs (t_type t) = None /\ t_type t <> end_) body ->
  forall n, length body < n ->
    regroup_fuel n body (Some end_) = Some (map Leaf body, []).
Proof.
  induction 1 as [|t body [Hp Hne] _ IH]; intros n Hlen;
    (destruct n as [|n]; [simpl in Hlen; lia|]); simpl; [reflexivity|].
  apply String.eqb_neq in Hne. rewrite Hne, Hp, IH by (simpl in Hlen; lia).
  reflexivity.
Qed.

Lemma regroup_fuel_flat_closed (end_ : string) (body : list Token)
      (closer : Token) (rest : list Token) :
  Forall (fun t => pairs (t_type t) = None /\ t_type t <> end_) body ->
  t_type closer = end_ ->
  forall n, length body < n ->
    regroup_fuel n (body ++ closer :: rest) (Some end_) = Some (map Leaf body, rest).
Proof.
  intros Hbody Hcloser.
  induction Hbody as [|t body [Hp Hne] _ IH]; intros n Hlen;
    (destruct n as [|n]; [simpl in Hlen; lia|]); simpl.
  - now rewrite Hcloser, String.eqb_refl.
  - apply String.eqb_neq in Hne. rewrite Hne, Hp, IH by (simpl in Hlen; lia).
    reflexivity.
Qed.

(** ** The stylesheet loop terminates, on every input *)

Lemma parse_at_rule_loop_length (tokens : list node) :
  forall at_keyword head r rest,
    parse_at_rule_loop at_keyword head tokens = (r, rest) ->
    length rest <= length tokens.
Proof.
  induction tokens as [|token tokens IH]; intros at_keyword head r rest H;
    simpl in H.
  - inversion H. auto.
  - destruct (is_substring (type token) "{;").
    + inversion H; subst. simpl. lia.
    + destruct (nonempty head || negb (type token =? "S"));
        apply IH in H; simpl; lia.
Qed.

Lemma parse_at_rule_length (token : node) (tokens : list node) r rest :
  parse_at_rule token tokens = (r, rest) -> length rest <= length tokens.
Proof.
  unfold parse_at_rule.
  destruct (bind (value token) _).
  - apply parse_at_rule_loop_length.
  - intros H. inversion H. auto.
Qed.

Lemma parse_ruleset_loop_length (tokens : list node) :
  forall selector_parts r rest,
    parse_ruleset_loop selector_parts tokens = (r, rest) ->
    length rest <= length tokens - 1.
Proof.
  induction tokens as [|token tokens IH]; intros selector_parts r rest H;
    simpl in H.
  - inversion H. auto.
  - destruct (type token =? "{").
    + inversion H; subst. simpl. lia.
    + apply IH in H. simpl. lia.
Qed.

Lemma parse_ruleset_length (token : node) (tokens : list node) r rest :
  parse_ruleset token tokens = (r, rest) -> length rest <= length tokens.
Proof.
  intros H. apply parse_ruleset_loop_length in H. simpl in H. lia.
Qed.

Lemma parse_stylesheet_loop_enough (fuel : nat) :
  forall tokens rules errors,
    length tokens < fuel ->
    exists r, parse_stylesheet_loop fuel rules errors tokens = Some r.
Proof.
  induction fuel as [|fuel IH]; intros tokens rules errors Hlen; [lia|].
  destruct tokens as [|token tokens]; simpl; [eauto|].
  simpl in Hlen.
  destruct (negb (mem (type token) ["S"; "CDO"; "CDC"])); [|apply IH; lia].
  destruct (type token =? "ATKEYWORD").
  - destruct (parse_at_rule token tokens) as [r rest] eqn:E.
    apply parse_at_rule_length in E.
    destruct r as [r|[]]; eauto; apply IH; lia.
  - destruct (parse_ruleset token tokens) as [r rest] eqn:E.
    apply parse_ruleset_length in E.
    destruct r as [[[[selector declarations] rule_errors]|]|[]]; eauto;
      apply IH; lia.
Qed.

(** [parse_stylesheet] is defined on every input: it returns or raises. *)
Lemma parse_stylesheet_total (tokens : list node) :
  exists r, parse_stylesheet tokens = Some r.
Proof. apply parse_stylesheet_loop_enough. lia. Qed.

(** ** Declarations are parsed one by one *)

Lemma parse_parts_isolation (parts : list (list node)) :
  forall declarations errors,
    forallb recoverable parts = true ->
    parse_parts declarations errors parts
    = Ok (declarations ++ valid_declarations parts, errors ++ parse_errors parts).
Proof.
  induction parts as [|part parts IH]; intros declarations errors H; simpl.
  - now rewrite !app_nil_r.
  - simpl in H. apply andb_true_iff in H. destruct H as [Hpart Hparts].
    unfold recoverable in Hpart.
    destruct (parse_declaration part) as [d|[t m| | | |]]; try discriminate;
      rewrite IH by assumption; simpl; now rewrite <- ?app_assoc.
Qed.

(** * The claims *)

(** ** Errors at the top level *)

(** C1 (the code departs from the claim).  [parse_stylesheet] does not
    always return a pair: only [ParseError] is caught, and the grammar
    validation of a selector reports an invalid token through the
    undefined name [UnexpectedToken], so that [] { }] ends the whole
    parse with a [NameError]; a selector that is never followed by a
    block ends it with the [TypeError] of unpacking [None]. *)
Theorem parse_stylesheet_propagates_errors :
  parse_tokens css_bad_selector = Some (Raise (NameError "UnexpectedToken")) /\
  parse_tokens [tk "IDENT" "a" 1]
  = Some (Raise (TypeError "cannot unpack non-iterable NoneType object")).
Proof. split; reflexivity. Qed.

(** ** Serialization *)

(** C2, as stated, fails on [a { color: red]: the container left open at
    the end of the input is serialized with a closing brace that the
    source does not have. *)
Lemma round_trip_fails_when_unclosed :
  serialize (regroup css_unterminated) = "a { color: red}" /\
  source css_unterminated = "a { color: red" /\
  serialize (regroup css_unterminated) <> source css_unterminated.
Proof. repeat split. discriminate. Qed.

(** C2 (amended).  When the closing tokens carry their own character as
    text, serializing the grouped tree gives the source text followed by
    the closers of the containers still open at the end of the input,
    innermost first; so it gives exactly the source text when every
    container is closed in the input. *)
Theorem regroup_round_trip (tokens : list Token) :
  closers_verbatim tokens ->
  serialize (regroup tokens) = (source tokens ++ join (unclosed [] tokens))%string /\
  (unclosed [] tokens = [] -> serialize (regroup tokens) = source tokens).
Proof.
  intros Hv.
  destruct (regroup_fuel_total tokens) as [rest H].
  pose proof (regroup_fuel_top_rest _ _ _ _ H). subst rest.
  pose proof (regroup_fuel_as_css _ tokens [] _ _ H Hv (Forall_nil _)) as E.
  simpl in E. rewrite append_empty_r in E.
  split; [now symmetry|].
  intros Hclosed. rewrite Hclosed in E. simpl in E.
  rewrite append_empty_r in E. now symmetry.
Qed.

Ltac verbatim_closers :=
  repeat (constructor;
          [ let Hm := fresh in
            intros Hm; first [ reflexivity | vm_compute in Hm; discriminate Hm ]
          | ]);
  try apply Forall_nil.

Lemma regroup_round_trip_witness :
  closers_verbatim css_nested /\
  serialize (regroup css_nested) = "((((a))))".
Proof.
  assert (Hv : closers_verbatim css_nested) by (unfold css_nested; verbatim_closers).
  split; [exact Hv|].
  exact (proj2 (regroup_round_trip css_nested Hv) eq_refl).
Defined.

(** ** Declarations *)

(** C3, as stated, fails: in [a:1; b:@; c:3;] the lone [@] is a DELIM
    token, which the "any" production accepts, so [b] is a declaration
    like the others and no error is recorded. *)
Lemma lone_at_sign_is_a_value :
  ~ (exists declarations errors,
        parse_declaration_list (regroup css_three_declarations)
        = Ok (declarations, errors) /\
        map fst declarations = ["a"; "c"] /\ length errors = 1).
Proof.
  intros (declarations & errors & H & Hd & _).
  vm_compute in H. inversion H; subst. discriminate Hd.
Qed.

(** C3 (amended).  A declaration that fails with [ParseError] discards
    only itself: when every part of a block either parses or raises
    [ParseError], the list parser returns the declarations of the parts
    that parse and the errors of the others, each in order.  So
    [a:1; b; c:3;] yields the declarations [a] and [c] and one error
    located at [b], while [a:1; b:@; c:3;] yields [a], [b] and [c] and no
    error. *)
Theorem declaration_isolation :
  (forall tokens,
      forallb recoverable (split_parts [] [] tokens) = true ->
      parse_declaration_list tokens
      = Ok (valid_declarations (split_parts [] [] tokens),
            parse_errors (split_parts [] [] tokens))) /\
  parse_declaration_list (regroup css_missing_colon)
  = Ok ([("a", [Leaf (num "1" 1 3)]); ("c", [Leaf (num "3" 3 11)])],
        [ParseError (Leaf (tk "IDENT" "b" 6)) "Parse error at 1:6, expected ':'"]) /\
  parse_declaration_list (regroup css_three_declarations)
  = Ok ([("a", [Leaf (num "1" 1 3)]); ("b", [Leaf (tk "DELIM" "@" 8)]);
         ("c", [Leaf (num "3" 3 13)])], []).
Proof.
  split; [|split; reflexivity].
  intros tokens H. unfold parse_declaration_list.
  now rewrite parse_parts_isolation.
Qed.

Lemma declaration_isolation_witness :
  forallb recoverable (split_parts [] [] (regroup css_missing_colon)) = true /\
  map fst (valid_declarations (split_parts [] [] (regroup css_missing_colon)))
  = ["a"; "c"] /\
  exists declarations errors,
    parse_declaration_list (regroup css_missing_colon) = Ok (declarations, errors).
Proof.
  split; [reflexivity|]. split; [reflexivity|].
  eexists. eexists.
  exact (proj1 declaration_isolation (regroup css_missing_colon) eq_refl).
Defined.

(** The outcome that C3 states does not depend on how the tokenizer
    classifies the lone [@]: no token other than white space or [;]
    makes [b] a recorded error next to the declarations [a] and [c]. *)
Lemma no_token_type_isolates_b (token : Token) :
  t_type token <> "S" -> t_type token <> ";" ->
  ~ (exists declarations errors,
        parse_declaration_list (block_with token) = Ok (declarations, errors) /\
        map fst declarations = ["a"; "c"] /\ length errors = 1).
Proof.
  intros HS Hsemi (declarations & errors & H & Hd & _).
  apply String.eqb_neq in HS. apply String.eqb_neq in Hsemi.
  unfold parse_declaration_list, block_with in H.
  cbn in H. rewrite Hsemi in H. cbn in H.
  unfold parse_value in H. cbn in H. rewrite HS in H. cbn in H.
  destruct (t_type token =? "{"); cbn in H; [discriminate H|].
  destruct (mem (t_type token) ["FUNCTION"; "("; "["]); cbn in H;
    [discriminate H|].
  destruct (mem (t_type token) simple_types); cbn in H; [|discriminate H].
  rewrite HS in H. cbn in H.
  inversion H; subst. discriminate Hd.
Qed.

(** ** At-rules *)

(** Every at-rule with a head fails on its terminator: what is handed to
    [validate_any] is the [value] of the head token, not the token. *)
Lemma validate_head_raises (head_token : node) (head : list node) :
  exists attribute,
    validate_head (head_token :: head) = Raise (AttributeError attribute).
Proof. destruct head_token; simpl; eauto. Qed.

(** C4 (the code departs from the claim).  The head tokens are not
    validated against "any": on the terminator the parser looks up
    [head_token.value] and hands that to [validate_any], which raises
    [AttributeError] for every head token, valid or not.  So
    [@import 'x.css';] ends the whole parse with an [AttributeError]
    that is neither a statement-level [ParseError] nor recorded, while an
    at-rule with an empty head is returned. *)
Theorem at_rule_head_is_never_validated :
  parse_tokens css_import = Some (Raise (AttributeError "type")) /\
  (forall at_keyword head_token head terminator tokens,
      is_substring (type terminator) "{;" = true ->
      exists attribute,
        parse_at_rule_loop at_keyword (head_token :: head) (terminator :: tokens)
        = (Raise (AttributeError attribute), tokens)) /\
  parse_tokens [tk "ATKEYWORD" "@IMPORT" 1; tk ";" ";" 8]
  = Some (Ok ([Some (AtRule "@import" [] None)], [])).
Proof.
  split; [reflexivity|]. split; [|reflexivity].
  intros at_keyword head_token head terminator tokens Hterm.
  destruct (validate_head_raises head_token head) as [attribute E].
  exists attribute. cbn [parse_at_rule_loop]. now rewrite Hterm, E.
Qed.

Lemma at_rule_head_is_never_validated_witness :
  exists attribute,
    parse_at_rule_loop "@import"
      [Leaf (mkToken "STRING" "'x.css'" (PyStr "x.css") 1 9)]
      [Leaf (tk ";" ";" 16)]
    = (Raise (AttributeError attribute), []).
Proof.
  exact (proj1 (proj2 at_rule_head_is_never_validated) "@import"
               (Leaf (mkToken "STRING" "'x.css'" (PyStr "x.css") 1 9))
               [] (Leaf (tk ";" ";" 16)) [] eq_refl).
Defined.

(** ** Values *)

(** C5 (the code departs from the claim).  A [{]-container in a value is
    not checked against "block": [parse_value] hands [validate_block]
    the container itself instead of its children, and iterating over a
    container raises [TypeError]; inside [validate_block] a nested
    [{]-container is asked for a [value] attribute it does not have.
    So [a:{}] is not a declaration but ends the parse with a
    [TypeError]. *)
Theorem value_block_is_never_validated :
  parse_declaration (regroup css_block_value)
  = Raise (TypeError "object is not iterable") /\
  (forall css_start css_end c line column context,
      validate_block (ONode (ContainerToken "{" css_start css_end c line column))
                     context
      = Raise (TypeError "object is not iterable")) /\
  (forall css_start css_end c line column tokens context,
      validate_block
        (OList (ContainerToken "{" css_start css_end c line column :: tokens))
        context
      = Raise (AttributeError "value")).
Proof. repeat split. Qed.

(** ** Empty declarations *)

(** C6 (the code departs from the claim).  A [;] met while the current
    part is empty is not skipped: it opens the next part.  For
    [;  ; a:1] the parts are [;  ] and [a:1]; the first one is handed to
    [parse_declaration], which rejects its first token through the
    undefined name [UnexpectedToken], and the list parser ends with a
    [NameError] instead of one declaration and no error. *)
Theorem leading_semicolon_is_a_part :
  split_parts [] [] (regroup css_empty_declarations)
  = [[Leaf (tk ";" ";" 1); Leaf (tk "S" "  " 2)];
     [Leaf (tk "IDENT" "a" 6); Leaf (tk ":" ":" 7); Leaf (num "1" 1 8)]] /\
  parse_declaration_list (regroup css_empty_declarations)
  = Raise (NameError "UnexpectedToken").
Proof. split; reflexivity. Qed.

(** ** Implicit close *)

Lemma regroup_of_fuel (n : nat) (tokens : list Token) out rest :
  regroup_fuel n tokens None = Some (out, rest) -> regroup tokens = out.
Proof.
  intros H. destruct (regroup_fuel_total tokens) as [rest' H'].
  apply (regroup_fuel_mono _ (Nat.max n (S (length tokens)))) in H; [|lia].
  apply (regroup_fuel_mono _ (Nat.max n (S (length tokens)))) in H'; [|lia].
  rewrite H in H'. now inversion H'.
Qed.

Lemma regroup_fuel_opener (n : nat) token tokens stop_at end_ :
  is_stop (t_type token) stop_at = false ->
  pairs (t_type token) = Some end_ ->
  regroup_fuel (S n) (token :: tokens) stop_at
  = match regroup_fuel n tokens (Some end_) with
    | Some (c, rest) =>
        match regroup_fuel n rest stop_at with
        | Some (out, rest') => Some (group token end_ c :: out, rest')
        | None => None
        end
    | None => None
    end.
Proof. intros Hstop Hpairs. simpl. now rewrite Hstop, Hpairs. Qed.

Lemma regroup_fuel_leaf (n : nat) token tokens stop_at :
  is_stop (t_type token) stop_at = false ->
  pairs (t_type token) = None ->
  regroup_fuel (S n) (token :: tokens) stop_at
  = match regroup_fuel n tokens stop_at with
    | Some (out, rest) => Some (Leaf token :: out, rest)
    | None => None
    end.
Proof. intros Hstop Hpairs. simpl. now rewrite Hstop, Hpairs. Qed.

(** What [regroup] yields does not change when the closers still
    missing are appended, innermost first; of these it leaves those of
    the containers that were open when it was called. *)
Lemma regroup_fuel_closing (n : nat) :
  forall tokens stack out rest closing,
    regroup_fuel n tokens (hd_error stack) = Some (out, rest) ->
    map t_type closing = unclosed stack tokens ->
    exists m closing',
      regroup_fuel m (tokens ++ closing) (hd_error stack)
      = Some (out, rest ++ closing') /\
      map t_type closing' = unclosed (tl stack) rest.
Proof.
  induction n as [|n IH]; intros tokens stack out rest closing H Hclosing;
    [discriminate|].
  destruct tokens as [|token tokens].
  - inversion H; subst. cbn [unclosed app] in *.
    destruct stack as [|e stack]; destruct closing as [|c closing];
      try discriminate Hclosing.
    + exists 1, []. split; reflexivity.
    + inversion Hclosing as [[Hc Hcs]]. exists 1, closing.
      cbn [regroup_fuel hd_error is_stop tl app]. rewrite String.eqb_refl.
      split; reflexivity.
  - cbn [unclosed] in Hclosing.
    regroup_cases H token tokens (hd_error stack) n.
    + exists 1, closing. cbn [app regroup_fuel]. rewrite Hstop.
      split; [reflexivity|exact Hclosing].
    + destruct (IH tokens (end_ :: stack) c rest1 closing Hin Hclosing)
        as (m1 & closing1 & Hm1 & Hclosing1).
      cbn [tl hd_error] in Hm1, Hclosing1.
      destruct (IH rest1 stack out' rest closing1 Hnext Hclosing1)
        as (m2 & closing2 & Hm2 & Hclosing2).
      exists (S (Nat.max m1 m2)), closing2. split; [|exact Hclosing2].
      cbn [app]. rewrite (regroup_fuel_opener _ _ _ _ _ Hstop Hpairs).
      rewrite (regroup_fuel_mono _ (Nat.max m1 m2) _ _ _ Hm1) by lia.
      now rewrite (regroup_fuel_mono _ (Nat.max m1 m2) _ _ _ Hm2) by lia.
    + destruct (IH tokens stack out' rest closing Hnext Hclosing)
        as (m & closing' & Hm & Hclosing').
      exists (S m), closing'. split; [|exact Hclosing'].
      cbn [app]. now rewrite (regroup_fuel_leaf _ _ _ _ Hstop Hpairs), Hm.
Qed.

(** C7.  When the input ends before the closers of the containers that
    are open, however many and however nested, the grouper closes them
    all there: the tree is the one it builds when the missing closers
    follow, innermost first.  In particular an opener followed by tokens
    that neither open a container nor close this one is grouped with all
    of them as its content.  So [a { color: red] parses into one ruleset
    with the declaration [color: red] and no error, and [a{b:f(c] into
    one ruleset with the declaration of [b], whose value is the function
    [f(c]. *)
Theorem implicit_close :
  (forall tokens closing,
      map t_type closing = unclosed [] tokens ->
      regroup (tokens ++ closing) = regroup tokens) /\
  (forall opener end_ body closer,
      pairs (t_type opener) = Some end_ ->
      Forall (fun t => pairs (t_type t) = None /\ t_type t <> end_) body ->
      t_type closer = end_ ->
      regroup (opener :: body) = [group opener end_ (map Leaf body)] /\
      regroup (opener :: body ++ [closer]) = regroup (opener :: body)) /\
  parse_tokens css_unterminated
  = Some (Ok ([Some (Ruleset
                       (ContainerToken "SELECTOR" "" ""
                          [Leaf (tk "IDENT" "a" 1); Leaf (tk "S" " " 2)] 1 1)
                       [("color", [Leaf (tk "IDENT" "red" 12)])])],
              [])) /\
  parse_tokens css_open_nested
  = Some (Ok ([Some (Ruleset
                       (ContainerToken "SELECTOR" "" ""
                          [Leaf (tk "IDENT" "a" 1)] 1 1)
                       [("b", [FunctionToken "FUNCTION" "f(" ")" (PyStr "f")
                                 [Leaf (tk "IDENT" "c" 7)] 1 5])])],
              [])).
Proof.
  split; [|split; [|split; reflexivity]].
  - intros tokens closing Hclosing.
    destruct (regroup_fuel_total tokens) as [rest H].
    destruct (regroup_fuel_closing _ tokens [] _ _ closing H Hclosing)
      as (m & closing' & Hm & _).
    exact (regroup_of_fuel _ _ _ _ Hm).
  - intros opener end_ body closer Hopen Hbody Hcloser.
    assert (E : regroup (opener :: body) = [group opener end_ (map Leaf body)]).
    { apply (regroup_of_fuel (S (S (length body))) _ _ []).
      rewrite (regroup_fuel_opener _ opener _ None end_ eq_refl Hopen).
      now rewrite (regroup_fuel_flat end_ body Hbody) by lia. }
    split; [exact E|]. rewrite E.
    apply (regroup_of_fuel (S (S (length body))) _ _ []).
    rewrite (regroup_fuel_opener _ opener _ None end_ eq_refl Hopen).
    now rewrite (regroup_fuel_flat_closed end_ body closer [] Hbody Hcloser) by lia.
Qed.

Lemma implicit_close_witness :
  map t_type [tk ")" ")" 8; tk "}" "}" 9] = unclosed [] css_open_nested /\
  regroup (css_open_nested ++ [tk ")" ")" 8; tk "}" "}" 9])
  = regroup css_open_nested /\
  regroup css_open_nested
  = [Leaf (tk "IDENT" "a" 1);
     ContainerToken "{" "{" "}"
       [Leaf (tk "IDENT" "b" 3); Leaf (tk ":" ":" 4);
        FunctionToken "FUNCTION" "f(" ")" (PyStr "f")
          [Leaf (tk "IDENT" "c" 7)] 1 5] 1 2].
Proof.
  split; [reflexivity|]. split; [|reflexivity].
  exact (proj1 implicit_close css_open_nested
               [tk ")" ")" 8; tk "}" "}" 9] eq_refl).
Defined.

(** ** Nesting *)

Lemma regroup_fuel_nested (depth : nat) :
  forall column stop_at rest out rest' n,
    stop_at = None \/ stop_at = Some ")" ->
    regroup_fuel n rest stop_at = Some (out, rest') ->
    exists m,
      regroup_fuel m (nested_source depth column ++ rest) stop_at
      = Some (nested_tree depth column :: out, rest').
Proof.
  induction depth as [|d IH]; intros column stop_at rest out rest' n Hstop H.
  - exists (S n). simpl. rewrite H.
    now destruct Hstop; subst.
  - destruct (IH (S column) (Some ")") (tk ")" ")" (column + 2 * d + 2) :: rest)
                 [] rest 1 (or_intror eq_refl) eq_refl) as [m1 H1].
    exists (S (Nat.max m1 n)).
    cbn [nested_source]. rewrite <- app_comm_cons, <- app_assoc.
    cbn [app].
    rewrite (regroup_fuel_opener _ _ _ _ ")")
      by (reflexivity || now destruct Hstop; subst).
    rewrite (regroup_fuel_mono _ (Nat.max m1 n) _ _ _ H1) by lia.
    rewrite (regroup_fuel_mono _ (Nat.max m1 n) _ _ _ H) by lia.
    reflexivity.
Qed.

(** C8.  In everything [regroup] yields, at any depth, the content of a
    container holds no token of the container's own closing type, however
    the input is formed; and [((((a))))], like any number of
    parentheses around [a], groups into that many nested containers with
    one child each. *)
Theorem regroup_well_nested :
  (forall tokens, forallb well_nested (regroup tokens) = true) /\
  regroup css_nested
  = [ContainerToken "(" "(" ")"
       [ContainerToken "(" "(" ")"
          [ContainerToken "(" "(" ")"
             [ContainerToken "(" "(" ")" [Leaf (tk "IDENT" "a" 5)] 1 4] 1 3]
          1 2] 1 1] /\
  (forall depth, regroup (nested_source depth 1) = [nested_tree depth 1]).
Proof.
  split; [|split; [reflexivity|]].
  - intros tokens. destruct (regroup_fuel_total tokens) as [rest H].
    now apply regroup_fuel_well_nested in H.
  - intros depth.
    destruct (regroup_fuel_nested depth 1 None [] [] [] 1 (or_introl eq_refl) eq_refl)
      as [m H].
    rewrite app_nil_r in H. exact (regroup_of_fuel _ _ _ _ H).
Qed.

(** ** At-rules that never end *)

Lemma parse_at_rule_loop_exhausted (tokens : list node) :
  forall at_keyword head,
    no_terminator tokens = true ->
    parse_at_rule_loop at_keyword head tokens = (Ok None, []).
Proof.
  induction tokens as [|token tokens IH]; intros at_keyword head H;
    [reflexivity|].
  cbn [no_terminator forallb] in H. apply andb_true_iff in H.
  destruct H as [Htoken Htokens]. apply negb_true_iff in Htoken.
  cbn [parse_at_rule_loop]. rewrite Htoken.
  destruct (nonempty head || negb (type token =? "S")); now apply IH.
Qed.

(** C9 (the code departs from the claim).  When the iterator runs out
    before a [;] or a [{], [parse_at_rule] ends without returning a
    tuple, and [parse_stylesheet] appends what it got, Python's [None],
    to the rules: the rules list does gain an entry for the at-rule, and
    the errors list gains none. *)
Theorem unterminated_at_rule_appends_none :
  (forall at_keyword_token tokens s,
      t_type at_keyword_token = "ATKEYWORD" ->
      t_value at_keyword_token = PyStr s ->
      no_terminator tokens = true ->
      parse_stylesheet (Leaf at_keyword_token :: tokens) = Some (Ok ([None], []))) /\
  parse_tokens css_unterminated_at_rule = Some (Ok ([None], [])).
Proof.
  split; [|reflexivity].
  intros at_keyword_token tokens s Htype Hvalue Hterm.
  unfold parse_stylesheet.
  cbn [length parse_stylesheet_loop type]. rewrite Htype.
  change (negb (mem "ATKEYWORD" ["S"; "CDO"; "CDC"])) with true.
  change ("ATKEYWORD" =? "ATKEYWORD") with true. cbv iota.
  unfold parse_at_rule. cbn [value bind]. rewrite Hvalue. cbn [py_lower].
  rewrite parse_at_rule_loop_exhausted by assumption.
  reflexivity.
Qed.

Lemma unterminated_at_rule_appends_none_witness :
  parse_stylesheet [Leaf (tk "ATKEYWORD" "@media" 1); Leaf (tk "S" " " 7);
                    Leaf (tk "IDENT" "screen" 8)]
  = Some (Ok ([None], [])).
Proof.
  exact (proj1 unterminated_at_rule_appends_none (tk "ATKEYWORD" "@media" 1)
               [Leaf (tk "S" " " 7); Leaf (tk "IDENT" "screen" 8)] "@media"
               eq_refl eq_refl eq_refl).
Defined.

(** ** Shape of the rules *)

Lemma lower_char_idem (c : ascii) : lower_char (lower_char c) = lower_char c.
Proof. destruct c as [[] [] [] [] [] [] [] []]; reflexivity. Qed.

Lemma lower_idem (s : string) : lower (lower s) = lower s.
Proof.
  induction s as [|c s IH]; simpl; [reflexivity|].
  now rewrite lower_char_idem, IH.
Qed.

Lemma lower_char_not_capital (c : ascii) : is_capital (lower_char c) = false.
Proof. destruct c as [[] [] [] [] [] [] [] []]; reflexivity. Qed.

Lemma lower_no_capital (s : string) : no_capital (lower s) = true.
Proof.
  unfold no_capital.
  induction s as [|c s IH]; cbn [lower list_ascii_of_string forallb];
    [reflexivity|].
  now rewrite lower_char_not_capital, IH.
Qed.

(** A string is left as it is by [lower] exactly when it holds no
    capital letter. *)
Lemma lower_fixed_iff (s : string) : lower s = s <-> no_capital s = true.
Proof.
  split; [intros E; rewrite <- E; apply lower_no_capital|].
  unfold no_capital.
  induction s as [|c s IH]; cbn [lower list_ascii_of_string forallb];
    [reflexivity|].
  intros H. apply andb_true_iff in H. destruct H as [Hc Hs].
  unfold lower_char. apply negb_true_iff in Hc. rewrite Hc.
  now rewrite (IH Hs).
Qed.

(** The capital letters beyond A to Z are lowered too: the word ECOLE
    with an acute accent on its first letter (code point 201) becomes
    the same word in small letters (code point 233 first); the sharp s
    (223) and the multiplication sign (215) stay. *)
Lemma lower_beyond_ascii :
  lower (String (ascii_of_nat 201) "COLE") = String (ascii_of_nat 233) "cole" /\
  lower (String (ascii_of_nat 223) (String (ascii_of_nat 215) "Z"))
  = String (ascii_of_nat 223) (String (ascii_of_nat 215) "z").
Proof. split; reflexivity. Qed.

Lemma parse_at_rule_loop_entry (tokens : list node) :
  forall at_keyword head r rest,
    lower at_keyword = at_keyword ->
    parse_at_rule_loop at_keyword head tokens = (Ok r, rest) ->
    is_rule_tuple_or_none r.
Proof.
  induction tokens as [|token tokens IH]; intros at_keyword head r rest Hl H;
    cbn [parse_at_rule_loop] in H.
  - inversion H. exact I.
  - destruct (is_substring (type token) "{;").
    + destruct (validate_head head); inversion H; subst. simpl. auto.
    + destruct (nonempty head || negb (type token =? "S")); eapply IH; eauto.
Qed.

Lemma parse_at_rule_entry (token : node) (tokens : list node) r rest :
  parse_at_rule token tokens = (Ok r, rest) -> is_rule_tuple_or_none r.
Proof.
  unfold parse_at_rule.
  destruct (value token) as [v|]; cbn [bind]; [|discriminate].
  destruct v; cbn [py_lower]; try discriminate.
  apply parse_at_rule_loop_entry, lower_idem.
Qed.

Lemma parse_stylesheet_loop_entries (fuel : nat) :
  forall rules errors tokens rules' errors',
    Forall is_rule_tuple_or_none rules ->
    parse_stylesheet_loop fuel rules errors tokens = Some (Ok (rules', errors')) ->
    Forall is_rule_tuple_or_none rules'.
Proof.
  induction fuel as [|fuel IH]; intros rules errors tokens rules' errors' Hr H;
    [discriminate|].
  destruct tokens as [|token tokens]; cbn [parse_stylesheet_loop] in H.
  - now inversion H; subst.
  - destruct (negb (mem (type token) ["S"; "CDO"; "CDC"])); [|eauto].
    destruct (type token =? "ATKEYWORD").
    + destruct (parse_at_rule token tokens) as [r rest] eqn:E.
      destruct r as [r|[]]; try discriminate.
      * refine (IH _ _ _ _ _ _ H).
        apply Forall_app. split; [assumption|].
        constructor; [|constructor]. eapply parse_at_rule_entry; eassumption.
      * exact (IH _ _ _ _ _ Hr H).
    + destruct (parse_ruleset token tokens) as [r rest] eqn:E.
      destruct r as [[[[selector declarations] rule_errors]|]|[]];
        try discriminate.
      * refine (IH _ _ _ _ _ _ H).
        apply Forall_app. split; [assumption|].
        constructor; [reflexivity|constructor].
      * exact (IH _ _ _ _ _ Hr H).
Qed.

(** C10 (the code departs from the claim).  Not every entry of the rules
    list is a tuple: for [a{} @X] the second entry is Python's [None],
    which [parse_at_rule] returned for the at-rule that never ends.
    Every other entry is as the claim says: a tuple that starts with the
    lower-case keyword for an at-rule and with [None] for a ruleset. *)
Theorem rules_may_hold_none :
  parse_tokens css_ruleset_then_at_rule
  = Some (Ok ([Some (Ruleset (ContainerToken "SELECTOR" "" ""
                                [Leaf (tk "IDENT" "a" 1)] 1 1) []);
               None], [])) /\
  ~ Forall is_rule_tuple
      [Some (Ruleset (ContainerToken "SELECTOR" "" ""
                        [Leaf (tk "IDENT" "a" 1)] 1 1) []);
       None] /\
  (forall tokens rules errors,
      parse_stylesheet tokens = Some (Ok (rules, errors)) ->
      Forall is_rule_tuple_or_none rules) /\
  parse_tokens [tk "ATKEYWORD" "@X" 1; tk "{" "{" 3; tk "}" "}" 4]
  = Some (Ok ([Some (AtRule "@x" []
                       (Some (ContainerToken "{" "{" "}" [] 1 3)))], [])).
Proof.
  split; [reflexivity|]. split; [|split; [|reflexivity]].
  - intros H. inversion H as [|? ? _ H']. inversion H' as [|? ? Hnone _].
    exact Hnone.
  - intros tokens rules errors H.
    exact (parse_stylesheet_loop_entries _ _ _ _ _ _ (Forall_nil _) H).
Qed.

Lemma rules_may_hold_none_witness :
  Forall is_rule_tuple_or_none [@None rule].
Proof.
  exact (proj1 (proj2 (proj2 rules_may_hold_none))
               (regroup css_unterminated_at_rule) [None] [] eq_refl).
Defined.

(** * Further properties of the parser *)

(** ** Induction on token trees *)

Lemma node_ind_all (P : node -> Prop) :
  (forall t, P (Leaf t)) ->
  (forall type_ css_start css_end c l col,
      Forall P c -> P (ContainerToken type_ css_start css_end c l col)) ->
  (forall type_ css_start css_end name c l col,
      Forall P c -> P (FunctionToken type_ css_start css_end name c l col)) ->
  forall token, P token.
Proof.
  intros HL HC HF. fix IH 1.
  intros [t|type_ css_start css_end c l col|type_ css_start css_end name c l col].
  - apply HL.
  - apply HC. induction c as [|x c IHc]; constructor; [apply IH | exact IHc].
  - apply HF. induction c as [|x c IHc]; constructor; [apply IH | exact IHc].
Qed.

(** ** The grouper keeps every token in its place *)

Lemma pairs_opener_types (type_ end_ : string) :
  pairs type_ = Some end_ ->
  (type_ =? "FUNCTION") = false ->
  mem type_ ["("; "["; "{"] = true.
Proof.
  unfold pairs, mem. intros H HF. rewrite HF in H. cbn [existsb].
  destruct (type_ =? "("); [reflexivity|].
  destruct (type_ =? "["); [reflexivity|].
  destruct (type_ =? "{"); [reflexivity|discriminate].
Qed.

Lemma shaped_group (token : Token) (end_ : string) (c : list node) :
  pairs (t_type token) = Some end_ ->
  forallb shaped c = true ->
  shaped (group token end_ c) = true.
Proof.
  intros Hp Hc. unfold group.
  destruct (t_type token =? "FUNCTION") eqn:E; cbn [shaped].
  - now rewrite E, Hc.
  - now rewrite (pairs_opener_types _ _ Hp E), Hc.
Qed.

Lemma regroup_fuel_shaped (n : nat) :
  forall tokens stop_at out rest,
    regroup_fuel n tokens stop_at = Some (out, rest) ->
    forallb shaped out = true.
Proof.
  induction n as [|n IH]; intros tokens stop_at out rest H; [discriminate|].
  destruct tokens as [|token tokens]; [now inversion H|].
  regroup_cases H token tokens stop_at n; cbn [forallb].
  - reflexivity.
  - rewrite (shaped_group _ _ _ Hpairs (IH _ _ _ _ Hin)).
    exact (IH _ _ _ _ Hnext).
  - cbn [shaped]. unfold is_opener. rewrite Hpairs.
    exact (IH _ _ _ _ Hnext).
Qed.

(** X1.  In the tree that [regroup] returns no opening token is left as
    a leaf, at any depth: each FUNCTION token has become a
    [FunctionToken] and each opening bracket a [ContainerToken] of its
    type. *)
Theorem regroup_replaces_openers (tokens : list Token) :
  forallb shaped (regroup tokens) = true.
Proof.
  destruct (regroup_fuel_total tokens) as [rest H].
  exact (regroup_fuel_shaped _ _ _ _ _ H).
Qed.

Lemma regroup_cons_leaf (t : Token) (tokens : list Token) :
  pairs (t_type t) = None ->
  regroup (t :: tokens) = Leaf t :: regroup tokens.
Proof.
  intros Hp. destruct (regroup_fuel_total tokens) as [rest H].
  apply (regroup_of_fuel (S (S (length tokens))) _ _ rest).
  rewrite (regroup_fuel_leaf _ t tokens None eq_refl Hp).
  now rewrite H.
Qed.

(** X2.  A token sequence without opening tokens is returned as it is:
    closing tokens that match nothing are left in place as leaves. *)
Theorem regroup_without_openers (tokens : list Token) :
  Forall (fun t => pairs (t_type t) = None) tokens ->
  regroup tokens = map Leaf tokens.
Proof.
  induction 1 as [|t tokens Hp _ IH]; [reflexivity|].
  now rewrite regroup_cons_leaf, IH.
Qed.

Lemma regroup_without_openers_witness :
  regroup [tk "IDENT" "a" 1; tk ")" ")" 2; tk "}" "}" 3; tk "IDENT" "b" 4]
  = [Leaf (tk "IDENT" "a" 1); Leaf (tk ")" ")" 2); Leaf (tk "}" "}" 3);
     Leaf (tk "IDENT" "b" 4)].
Proof.
  apply (regroup_without_openers
           [tk "IDENT" "a" 1; tk ")" ")" 2; tk "}" "}" 3; tk "IDENT" "b" 4]).
  repeat (constructor; [reflexivity|]). constructor.
Defined.

Lemma preorder_group (token : Token) (end_ : string) (c : list node) :
  preorder (group token end_ c) = token_info token :: flat_map preorder c.
Proof. unfold group. now destruct (t_type token =? "FUNCTION"). Qed.

Lemma opener_not_closer (type_ end_ : string) :
  pairs type_ = Some end_ -> is_closer type_ = false.
Proof.
  unfold pairs.
  destruct (type_ =? "FUNCTION") eqn:E1;
    [apply String.eqb_eq in E1; now subst|].
  destruct (type_ =? "(") eqn:E2; [apply String.eqb_eq in E2; now subst|].
  destruct (type_ =? "[") eqn:E3; [apply String.eqb_eq in E3; now subst|].
  destruct (type_ =? "{") eqn:E4; [apply String.eqb_eq in E4; now subst|].
  discriminate.
Qed.

Lemma info_not_closer_token (t : Token) :
  info_not_closer (token_info t) = negb (is_closer (t_type t)).
Proof. reflexivity. Qed.

Lemma regroup_fuel_preorder (n : nat) :
  forall tokens stop_at out rest,
    match stop_at with
    | Some e => is_closer e = true
    | None => True
    end ->
    regroup_fuel n tokens stop_at = Some (out, rest) ->
    filter info_not_closer (flat_map preorder out)
      ++ filter info_not_closer (map token_info rest)
    = filter info_not_closer (map token_info tokens).
Proof.
  induction n as [|n IH]; intros tokens stop_at out rest Hstop_at H;
    [discriminate|].
  destruct tokens as [|token tokens]; [now inversion H|].
  regroup_cases H token tokens stop_at n; cbn [map filter flat_map].
  - destruct stop_at as [e|]; [|discriminate].
    cbn [is_stop] in Hstop. apply String.eqb_eq in Hstop.
    now rewrite info_not_closer_token, Hstop, Hstop_at.
  - rewrite preorder_group.
    cbn [app filter].
    rewrite info_not_closer_token, (opener_not_closer _ _ Hpairs). cbn [negb app].
    rewrite filter_app, <- app_assoc.
    rewrite (IH _ _ _ _ Hstop_at Hnext).
    f_equal.
    exact (IH _ (Some end_) _ _ (pairs_closer _ _ Hpairs) Hin).
  - cbn [preorder app filter].
    destruct (info_not_closer (token_info token)); cbn [app];
      now rewrite (IH _ _ _ _ Hstop_at Hnext).
Qed.

(** X3.  Grouping loses and moves no token other than closing tokens:
    read in document order, a container standing for its opening token,
    the tree has the types, texts and positions of the input tokens,
    closing tokens set aside. *)
Theorem regroup_keeps_tokens (tokens : list Token) :
  filter info_not_closer (flat_map preorder (regroup tokens))
  = filter info_not_closer (map token_info tokens).
Proof.
  destruct (regroup_fuel_total tokens) as [rest H].
  pose proof (regroup_fuel_top_rest _ _ _ _ H). subst rest.
  pose proof (regroup_fuel_preorder _ _ None _ _ I H) as E.
  cbn [map filter] in E. now rewrite app_nil_r in E.
Qed.

(** ** The "any" production *)

Lemma validate_any_node_eq (token : node) (context : string) :
  validate_any_node token context
  = if mem (type token) ["FUNCTION"; "("; "["] then
      c <- content token ;; validate_each c (type token)
    else if negb (mem (type token) simple_types) then Raise UnexpectedToken
    else Ok tt.
Proof.
  destruct token as [t|type_ css_start css_end c l col
                     |type_ css_start css_end name c l col];
    cbn [validate_any_node type content bind];
    destruct (mem _ ["FUNCTION"; "("; "["]); try reflexivity;
    induction c as [|x c IHc]; cbn [validate_each]; try reflexivity;
    destruct (validate_any_node x type_); cbn [bind]; auto.
Qed.

Lemma validate_each_ok (tokens : list node) (context : string) :
  validate_each tokens context = Ok tt <->
  Forall (fun t => validate_any_node t context = Ok tt) tokens.
Proof.
  induction tokens as [|t tokens IH]; cbn [validate_each].
  - split; auto.
  - destruct (validate_any_node t context) as [[]|e] eqn:E; cbn [bind].
    + rewrite IH. split; [now constructor | now inversion 1].
    + split; [discriminate|]. inversion 1; subst. congruence.
Qed.

Lemma validate_each_outcomes (tokens : list node) (context : string) :
  Forall (fun t => forall ctx,
              validate_any_node t ctx = Ok tt \/
              validate_any_node t ctx = Raise UnexpectedToken \/
              validate_any_node t ctx = Raise (AttributeError "content")) tokens ->
  validate_each tokens context = Ok tt \/
  validate_each tokens context = Raise UnexpectedToken \/
  validate_each tokens context = Raise (AttributeError "content").
Proof.
  induction 1 as [|t tokens Ht _ IH]; cbn [validate_each]; [auto|].
  destruct (Ht context) as [E|[E|E]]; rewrite E; cbn [bind]; auto.
Qed.

Lemma validate_any_node_outcomes (token : node) :
  forall context,
    validate_any_node token context = Ok tt \/
    validate_any_node token context = Raise UnexpectedToken \/
    validate_any_node token context = Raise (AttributeError "content").
Proof.
  induction token as [t|type_ css_start css_end c l col IH
                      |type_ css_start css_end name c l col IH]
    using node_ind_all; intros context; rewrite validate_any_node_eq;
    cbn [type content bind];
    destruct (mem _ ["FUNCTION"; "("; "["]);
    try (destruct (negb (mem _ simple_types)); now auto);
    auto using validate_each_outcomes.
Qed.

Lemma validate_any_node_context (token : node) (context context' : string) :
  validate_any_node token context' = validate_any_node token context.
Proof. now rewrite !validate_any_node_eq. Qed.

(** X4.  [validate_any] on a token returns, or raises the [NameError]
    of the undefined name [UnexpectedToken], or the [AttributeError] of
    a missing [content]; it never raises [ParseError], and the context
    it is given changes nothing. *)
Theorem validate_any_never_raises_parse_error (token : node) (context : string) :
  (validate_any_node token context = Ok tt \/
   validate_any_node token context = Raise (NameError "UnexpectedToken") \/
   validate_any_node token context = Raise (AttributeError "content")) /\
  (forall context', validate_any_node token context' = validate_any_node token context).
Proof.
  split; [apply validate_any_node_outcomes|].
  intros context'. apply validate_any_node_context.
Qed.

Lemma not_opener_not_group (type_ : string) :
  is_opener type_ = false -> mem type_ ["FUNCTION"; "("; "["] = false.
Proof.
  unfold is_opener, pairs, mem. cbn [existsb].
  destruct (type_ =? "FUNCTION"); [discriminate|].
  destruct (type_ =? "("); [discriminate|].
  destruct (type_ =? "["); [discriminate|reflexivity].
Qed.

Lemma forallb_flat_map {A B : Type} (f : B -> bool) (g : A -> list B) (l : list A) :
  forallb f (flat_map g l) = forallb (fun x => forallb f (g x)) l.
Proof.
  induction l as [|x l IH]; cbn [flat_map forallb]; [reflexivity|].
  now rewrite forallb_app, IH.
Qed.

Lemma plain_children (c : list node) :
  Forall plain c <->
  existsb has_brace c = false /\ forallb simple_leaf (flat_map leaves c) = true.
Proof.
  unfold plain. induction c as [|x c IH]; cbn [existsb flat_map].
  - split; auto.
  - rewrite forallb_app, orb_false_iff, andb_true_iff. split.
    + inversion 1 as [|? ? [Hb Hl] Hc]; subst. apply IH in Hc. tauto.
    + intros [[Hb Hc] [Hl Hls]]. constructor; [auto|]. apply IH. auto.
Qed.

Lemma validate_each_plain (c : list node) (context : string) :
  Forall (fun t => shaped t = true ->
                   forall ctx, validate_any_node t ctx = Ok tt <-> plain t) c ->
  forallb shaped c = true ->
  (validate_each c context = Ok tt <-> Forall plain c).
Proof.
  intros IH Hs. rewrite validate_each_ok.
  induction IH as [|x c Hx _ IHc]; [split; constructor|].
  cbn [forallb] in Hs. apply andb_true_iff in Hs. destruct Hs as [Hsx Hsc].
  specialize (IHc Hsc). specialize (Hx Hsx context).
  split; inversion 1; subst; constructor; tauto.
Qed.

(** X5.  On a grouped token, [validate_any] returns exactly when the
    tree has no curly block at any depth and all its leaves have one of
    the simple types. *)
Theorem validate_any_accepts_plain_trees (token : node) :
  shaped token = true ->
  forall context, validate_any_node token context = Ok tt <-> plain token.
Proof.
  induction token as [t|type_ css_start css_end c l col IH
                      |type_ css_start css_end name c l col IH]
    using node_ind_all; intros Hs context; rewrite validate_any_node_eq;
    cbn [type content bind shaped] in *.
  - apply negb_true_iff in Hs. rewrite (not_opener_not_group _ Hs).
    unfold plain, simple_leaf. cbn [has_brace leaves forallb].
    rewrite andb_true_r.
    destruct (mem (t_type t) simple_types); cbn [negb];
      split; try tauto; try discriminate. intros [_ H]. discriminate H.
  - apply andb_true_iff in Hs. destruct Hs as [Hty Hc].
    unfold plain at 1. cbn [has_brace leaves].
    unfold mem in Hty. cbn [existsb] in Hty.
    destruct (type_ =? "(") eqn:E1; [apply String.eqb_eq in E1; subst|];
      [|destruct (type_ =? "[") eqn:E2; [apply String.eqb_eq in E2; subst|]];
      [| |destruct (type_ =? "{") eqn:E3; [apply String.eqb_eq in E3; subst|]];
      try discriminate.
    + change (mem "(" ["FUNCTION"; "("; "["]) with true.
      change ("(" =? "{") with false. cbn [orb].
      rewrite (validate_each_plain c "(" IH Hc). apply plain_children.
    + change (mem "[" ["FUNCTION"; "("; "["]) with true.
      change ("[" =? "{") with false. cbn [orb].
      rewrite (validate_each_plain c "[" IH Hc). apply plain_children.
    + change (mem "{" ["FUNCTION"; "("; "["]) with false.
      change (negb (mem "{" simple_types)) with true.
      change ("{" =? "{") with true. cbn [orb].
      split; [discriminate|]. intros [H _]. discriminate H.
  - apply andb_true_iff in Hs. destruct Hs as [Hty Hc].
    apply String.eqb_eq in Hty. subst type_.
    unfold plain at 1. cbn [has_brace leaves].
    change (mem "FUNCTION" ["FUNCTION"; "("; "["]) with true.
    change ("FUNCTION" =? "{") with false. cbn [orb].
    rewrite (validate_each_plain c "FUNCTION" IH Hc). apply plain_children.
Qed.

Lemma validate_any_accepts_plain_trees_witness :
  validate_any_node
    (FunctionToken "FUNCTION" "rgb(" ")" (PyStr "rgb")
       [Leaf (num "1" 1 5); Leaf (tk "DELIM" "," 6); Leaf (num "2" 2 7)] 1 1)
    "selector" = Ok tt.
Proof.
  apply (validate_any_accepts_plain_trees
           (FunctionToken "FUNCTION" "rgb(" ")" (PyStr "rgb")
              [Leaf (num "1" 1 5); Leaf (tk "DELIM" "," 6); Leaf (num "2" 2 7)]
              1 1) eq_refl "selector").
  split; reflexivity.
Defined.

(** ** White space around a value *)

Lemma lstrip_split (tokens : list node) :
  exists pre, tokens = pre ++ lstrip tokens /\ Forall is_space pre.
Proof.
  induction tokens as [|t tokens (pre & E & Hpre)]; [now exists []|].
  cbn [lstrip]. destruct (type t =? "S") eqn:Et.
  - exists (t :: pre). split; [cbn [app]; now f_equal|].
    constructor; [now apply String.eqb_eq|assumption].
  - now exists [].
Qed.

Lemma lstrip_head (tokens : list node) (t : node) :
  hd_error (lstrip tokens) = Some t -> type t <> "S".
Proof.
  induction tokens as [|x tokens IH]; cbn [lstrip]; [discriminate|].
  destruct (type x =? "S") eqn:Ex; [exact IH|].
  cbn [hd_error]. intros H. inversion H; subst. now apply String.eqb_neq.
Qed.

Lemma rstrip_split (tokens : list node) :
  exists post, tokens = rstrip tokens ++ post /\ Forall is_space post.
Proof.
  unfold rstrip. destruct (lstrip_split (List.rev tokens)) as (pre & E & Hpre).
  exists (List.rev pre). split; [|now apply Forall_rev].
  rewrite <- rev_app_distr, <- E. now rewrite rev_involutive.
Qed.

Lemma rstrip_last (tokens : list node) (t : node) :
  hd_error (List.rev (rstrip tokens)) = Some t -> type t <> "S".
Proof. unfold rstrip. rewrite rev_involutive. apply lstrip_head. Qed.

Lemma rstrip_head (tokens : list node) (t : node) :
  hd_error (rstrip tokens) = Some t -> hd_error tokens = Some t.
Proof.
  destruct (rstrip_split tokens) as (post & E & _).
  intros H. rewrite E. destruct (rstrip tokens); [discriminate|exact H].
Qed.

Lemma nonempty_snoc {A : Type} (l : list A) (x : A) : nonempty (l ++ [x]) = true.
Proof. now destruct l. Qed.

Lemma parse_value_scan_result (tokens : list node) :
  forall acc r,
    parse_value_scan acc tokens = Ok r ->
    r = acc ++ (if nonempty acc then tokens else lstrip tokens).
Proof.
  induction tokens as [|t tokens IH]; intros acc r H; cbn [parse_value_scan] in H.
  - inversion H; subst. destruct (nonempty _); cbn [lstrip]; now rewrite app_nil_r.
  - destruct acc as [|a acc].
    + cbn [nonempty orb lstrip] in *.
      destruct (type t =? "S"); cbn [negb] in H; [now apply IH in H|].
      destruct (if type t =? "{" then _ else _); [|discriminate].
      cbn [bind] in H. apply IH in H. now rewrite H.
    + cbn [nonempty orb] in *.
      destruct (if type t =? "{" then _ else _); [|discriminate].
      cbn [bind] in H. apply IH in H. rewrite H, nonempty_snoc.
      now rewrite <- app_assoc.
Qed.

Lemma pop_trailing_rstrip (n : nat) :
  forall acc, length acc <= n -> pop_trailing n acc = rstrip acc.
Proof.
  induction n as [|n IH]; intros acc Hlen.
  - destruct acc; [reflexivity|cbn [length] in Hlen; lia].
  - cbn [pop_trailing]. unfold rstrip.
    destruct (List.rev acc) as [|last front] eqn:E; cbn [lstrip].
    + apply (f_equal (@List.rev node)) in E. rewrite rev_involutive in E.
      now subst.
    + apply (f_equal (@List.rev node)) in E. rewrite rev_involutive in E.
      cbn [List.rev] in E. subst acc.
      destruct (type last =? "S"); [|reflexivity].
      rewrite removelast_last, IH.
      * unfold rstrip. now rewrite rev_involutive.
      * rewrite length_app in Hlen. cbn [length] in Hlen. lia.
Qed.

Lemma parse_value_is_strip (tokens v : list node) :
  parse_value tokens = Ok v -> v = strip tokens.
Proof.
  unfold parse_value, strip.
  destruct (parse_value_scan [] tokens) as [acc|] eqn:E; [|discriminate].
  cbn [bind]. intros H. inversion H; subst.
  apply parse_value_scan_result in E. cbn [nonempty app] in E. subst acc.
  now apply pop_trailing_rstrip.
Qed.

(** X6.  The value [parse_value] returns is the input with the white
    space removed at both ends and nothing else: the input is white
    space, then the value, then white space, and the value neither
    starts nor ends with white space. *)
Theorem parse_value_strips_both_ends (tokens v : list node) :
  parse_value tokens = Ok v ->
  v = strip tokens /\
  (exists pre post,
      tokens = pre ++ v ++ post /\ Forall is_space pre /\ Forall is_space post) /\
  (forall t, hd_error v = Some t -> type t <> "S") /\
  (forall t, hd_error (List.rev v) = Some t -> type t <> "S").
Proof.
  intros H. apply parse_value_is_strip in H. subst v. unfold strip.
  split; [reflexivity|].
  destruct (lstrip_split tokens) as (pre & E1 & Hpre).
  destruct (rstrip_split (lstrip tokens)) as (post & E2 & Hpost).
  split; [|split].
  - exists pre, post. now rewrite <- E2.
  - intros t Ht. apply rstrip_head in Ht. now apply lstrip_head in Ht.
  - intros t. apply rstrip_last.
Qed.

Lemma parse_value_strips_both_ends_witness :
  strip [Leaf (tk "S" " " 1); Leaf (tk "IDENT" "a" 2); Leaf (tk "S" " " 3);
         Leaf (tk "IDENT" "b" 4); Leaf (tk "S" " " 5)]
  = [Leaf (tk "IDENT" "a" 2); Leaf (tk "S" " " 3); Leaf (tk "IDENT" "b" 4)].
Proof.
  symmetry.
  exact (proj1 (parse_value_strips_both_ends
                  [Leaf (tk "S" " " 1); Leaf (tk "IDENT" "a" 2);
                   Leaf (tk "S" " " 3); Leaf (tk "IDENT" "b" 4);
                   Leaf (tk "S" " " 5)]
                  [Leaf (tk "IDENT" "a" 2); Leaf (tk "S" " " 3);
                   Leaf (tk "IDENT" "b" 4)] eq_refl)).
Defined.

(** ** Which values are accepted *)

Lemma value_check_ok (t : node) :
  (if type t =? "{" then validate_block (ONode t) "property value"
   else validate_any (ONode t) "property value") = Ok tt
  <-> value_token_ok t.
Proof.
  unfold value_token_ok. destruct (type t =? "{") eqn:E.
  - apply String.eqb_eq in E. cbn [validate_block].
    split; [discriminate|]. intros [H _]. contradiction.
  - apply String.eqb_neq in E. cbn [validate_any]. tauto.
Qed.

Lemma value_check_slip (t : node) (e : exn) :
  (if type t =? "{" then validate_block (ONode t) "property value"
   else validate_any (ONode t) "property value") = Raise e ->
  is_slip e = true.
Proof.
  destruct (type t =? "{"); cbn [validate_block validate_any].
  - intros H. now inversion H.
  - intros H.
    destruct (validate_any_node_outcomes t "property value") as [E|[E|E]];
      rewrite E in H; inversion H; reflexivity.
Qed.

Lemma parse_value_scan_ok (tokens : list node) :
  forall acc,
    (exists r, parse_value_scan acc tokens = Ok r) <->
    Forall value_token_ok (if nonempty acc then tokens else lstrip tokens).
Proof.
  induction tokens as [|t tokens IH]; intros acc; cbn [parse_value_scan].
  - split; [|eauto]. intros _. destruct (nonempty acc); constructor.
  - assert (Hstep :
      (exists r,
          (if type t =? "{" then validate_block (ONode t) "property value"
           else validate_any (ONode t) "property value") ;;;
          parse_value_scan (acc ++ [t]) tokens = Ok r)
      <-> Forall value_token_ok (t :: tokens)).
    { pose proof (value_check_ok t) as Hc. specialize (IH (acc ++ [t])).
      rewrite nonempty_snoc in IH.
      destruct (if type t =? "{" then _ else _) as [[]|e]; cbn [bind].
      - rewrite IH. split; [constructor; tauto | now inversion 1].
      - split; [intros [r H]; discriminate|].
        inversion 1; subst. apply Hc in H2. discriminate. }
    destruct acc as [|a acc]; cbn [nonempty orb lstrip]; [|exact Hstep].
    destruct (type t =? "S"); cbn [negb]; [exact (IH [])|exact Hstep].
Qed.

(** X7.  [parse_value] returns a value exactly when every token after
    the leading white space is accepted by [validate_any] and none is a
    [{] token. *)
Theorem parse_value_accepts (tokens : list node) :
  (exists v, parse_value tokens = Ok v) <->
  Forall value_token_ok (lstrip tokens).
Proof.
  rewrite <- (parse_value_scan_ok tokens []). unfold parse_value.
  split; intros [r H].
  - destruct (parse_value_scan [] tokens) as [acc|]; [eauto|discriminate].
  - rewrite H. cbn [bind]. eauto.
Qed.

Lemma parse_value_scan_slip (tokens : list node) :
  forall acc e, parse_value_scan acc tokens = Raise e -> is_slip e = true.
Proof.
  induction tokens as [|t tokens IH]; intros acc e H; cbn [parse_value_scan] in H;
    [discriminate|].
  destruct (nonempty acc || negb (type t =? "S")); [|eauto].
  pose proof (value_check_slip t) as Hs.
  destruct (if type t =? "{" then _ else _); cbn [bind] in H; [eauto|].
  inversion H; subst. now apply Hs.
Qed.

Lemma parse_value_slip (tokens : list node) (e : exn) :
  parse_value tokens = Raise e -> is_slip e = true.
Proof.
  unfold parse_value.
  destruct (parse_value_scan [] tokens) eqn:E; cbn [bind]; [discriminate|].
  intros H. inversion H; subst. eapply parse_value_scan_slip; eassumption.
Qed.

(** ** One declaration *)

Lemma find_colon_ok (tokens : list node) :
  forall token colon rest,
    find_colon token tokens = Ok (colon, rest) <->
    exists ws,
      tokens = ws ++ colon :: rest /\ Forall is_space ws /\ type colon = ":".
Proof.
  induction tokens as [|t tokens IH]; intros token colon rest;
    cbn [find_colon].
  - split; [discriminate|]. intros (ws & E & _). now destruct ws.
  - destruct (type t =? ":") eqn:Ec.
    + apply String.eqb_eq in Ec. split.
      * intros H. inversion H; subst. now exists [].
      * intros (ws & E & Hws & Hc). destruct ws as [|w ws]; cbn [app] in E.
        -- now inversion E.
        -- inversion E; subst. inversion Hws; subst.
           unfold is_space in *. congruence.
    + destruct (type t =? "S") eqn:Es; cbn [negb].
      * apply String.eqb_eq in Es. rewrite IH. split.
        -- intros (ws & E & Hws & Hc). exists (t :: ws). subst tokens.
           repeat split; auto.
        -- intros (ws & E & Hws & Hc). destruct ws as [|w ws]; cbn [app] in E.
           ++ inversion E; subst. apply String.eqb_neq in Ec. contradiction.
           ++ inversion E; subst. inversion Hws; subst. eauto.
      * split; [discriminate|]. intros (ws & E & Hws & Hc).
        destruct ws as [|w ws]; cbn [app] in E; inversion E; subst.
        -- apply String.eqb_neq in Ec. contradiction.
        -- inversion Hws; subst. apply String.eqb_neq in Es. contradiction.
Qed.

Lemma last_cons {A : Type} (l : list A) :
  forall x d, last (x :: l) d = last l x.
Proof.
  induction l as [|y l IH]; intros x d; [reflexivity|].
  change (last (x :: y :: l) d) with (last (y :: l) d).
  now rewrite !IH.
Qed.

Lemma last_cons_in {A : Type} (l : list A) :
  forall d, In (last l d) (d :: l).
Proof.
  induction l as [|x l IH]; intros d; [now left|].
  rewrite last_cons. right. apply IH.
Qed.

Lemma last_Forall {A : Type} (P : A -> Prop) (l : list A) :
  forall d, Forall P l -> P d -> P (last l d).
Proof.
  induction l as [|x l IH]; intros d Hl Hd; [exact Hd|].
  inversion Hl; subst. rewrite last_cons. now apply IH.
Qed.

Lemma find_colon_raise (tokens : list node) :
  forall token e,
    find_colon token tokens = Raise e ->
    e = UnexpectedToken \/
    (Forall is_space tokens /\
     e = mkParseError (last tokens token) "expected ':'").
Proof.
  induction tokens as [|t tokens IH]; intros token e H; cbn [find_colon] in H.
  - inversion H. right. split; [constructor|reflexivity].
  - destruct (type t =? ":"); [discriminate|].
    destruct (type t =? "S") eqn:Es; cbn [negb] in H.
    + apply IH in H. destruct H as [H|[Hs H]]; [now left|right].
      apply String.eqb_eq in Es. split; [now constructor|].
      now rewrite H, last_cons.
    + inversion H. now left.
Qed.

(** X8.  [parse_declaration] returns a declaration exactly for an IDENT
    token, white space, a [:] token and tokens of which [parse_value]
    makes a value that is not empty; the name is the value of the IDENT
    token as [str.lower()] gives it, with every capital letter, A to Z
    or accented, replaced by its small letter ([lower_beyond_ascii]). *)
Theorem parse_declaration_accepts (tokens : list node) (name : string)
        (v : list node) :
  parse_declaration tokens = Ok (name, v) <->
  exists ident ws colon rest s,
    tokens = ident :: ws ++ colon :: rest /\
    type ident = "IDENT" /\ value ident = Ok (PyStr s) /\ name = lower s /\
    Forall is_space ws /\ type colon = ":" /\
    parse_value rest = Ok v /\ v <> [].
Proof.
  split.
  - destruct tokens as [|ident tokens]; cbn [parse_declaration]; [discriminate|].
    destruct (type ident =? "IDENT") eqn:Ei; [|discriminate].
    apply String.eqb_eq in Ei.
    destruct (value ident) as [[|s| |]|] eqn:Ev; cbn [bind py_lower];
      try discriminate.
    destruct (find_colon ident tokens) as [[colon rest]|] eqn:Ef; cbn [bind];
      [|discriminate].
    apply find_colon_ok in Ef. destruct Ef as (ws & E & Hws & Hc).
    destruct (parse_value rest) as [val|] eqn:Epv; cbn [bind]; [|discriminate].
    destruct val as [|x val]; cbn [nonempty]; [discriminate|].
    intros H. inversion H; subst.
    exists ident, ws, colon, rest, s. repeat split; auto. discriminate.
  - intros (ident & ws & colon & rest & s & E & Hi & Hv & Hn & Hws & Hc & Hpv & Hne).
    subst tokens name. cbn [parse_declaration].
    apply String.eqb_eq in Hi. rewrite Hi, Hv. cbn [bind py_lower].
    assert (Hf : find_colon ident (ws ++ colon :: rest) = Ok (colon, rest))
      by (apply find_colon_ok; eauto).
    rewrite Hf. cbn [bind]. rewrite Hpv. cbn [bind].
    destruct v; [contradiction|reflexivity].
Qed.

Lemma parse_declaration_raise (tokens : list node) (e : exn) :
  parse_declaration tokens = Raise e ->
  tokens = [] /\ e = StopIteration \/
  is_slip e = true \/
  exists t reason,
    In t tokens /\ e = mkParseError t reason /\
    (type t <> ":" /\ reason = "expected ':'" \/
     type t = ":" /\ reason = "expected a property value").
Proof.
  destruct tokens as [|ident tokens]; cbn [parse_declaration].
  - intros H. inversion H. now left.
  - intros H. right.
    destruct (type ident =? "IDENT") eqn:Ei; [|inversion H; now left].
    apply String.eqb_eq in Ei.
    destruct (value ident) as [[|s| |]|] eqn:Ev; cbn [bind py_lower] in H;
      try (inversion H; now left).
    + destruct (find_colon ident tokens) as [[colon rest]|e'] eqn:Ef;
        cbn [bind] in H.
      * apply find_colon_ok in Ef. destruct Ef as (ws & E & Hws & Hc).
        destruct (parse_value rest) as [val|e''] eqn:Epv; cbn [bind] in H.
        -- destruct val; cbn [nonempty] in H; [|discriminate].
           inversion H; subst. right. exists colon, "expected a property value".
           split; [|split; [reflexivity|now right]].
           right. apply in_or_app. right. now left.
        -- inversion H; subst. left. eapply parse_value_slip; eassumption.
      * inversion H; subst. apply find_colon_raise in Ef.
        destruct Ef as [Ef|[Hs Ef]]; [left; now subst|right].
        exists (last tokens ident), "expected ':'".
        split; [apply last_cons_in|].
        split; [exact Ef|left; split; [|reflexivity]].
        apply (last_Forall (fun t => type t <> ":")).
        -- eapply Forall_impl; [|exact Hs].
           unfold is_space. intros a Ha. rewrite Ha. discriminate.
        -- rewrite Ei. discriminate.
    + inversion H; subst. left.
      destruct ident; cbn [value] in Ev; inversion Ev; reflexivity.
Qed.

Lemma parse_value_empty (tokens : list node) :
  parse_value tokens = Ok [] -> Forall is_space tokens.
Proof.
  intros H. apply parse_value_is_strip in H. unfold strip in H.
  destruct (lstrip_split tokens) as (pre & E1 & Hpre).
  destruct (rstrip_split (lstrip tokens)) as (post & E2 & Hpost).
  rewrite <- H in E2. cbn [app] in E2. rewrite E1, E2.
  apply Forall_app. now split.
Qed.

(** X9.  [parse_declaration] raises [ParseError] in two cases only.
    Either the input is an IDENT token followed by white space only, and
    the error is on the last token of the input, the last one read
    before the end, with the reason that a [:] was expected.  Or the
    input is an IDENT token, white space, a [:] and then white space
    only, and the error is on that [:], with the reason that a property
    value was expected.  The message is made from the position of the
    token the error is on. *)
Theorem parse_declaration_errors_are_located (tokens : list node)
        (t : node) (m : string) :
  parse_declaration tokens = Raise (ParseError t m) ->
  (exists ident others,
      tokens = ident :: others /\ type ident = "IDENT" /\
      Forall is_space others /\ t = last tokens ident /\
      ParseError t m = mkParseError t "expected ':'") \/
  (exists ident ws rest,
      tokens = ident :: ws ++ t :: rest /\ type ident = "IDENT" /\
      Forall is_space ws /\ type t = ":" /\ Forall is_space rest /\
      ParseError t m = mkParseError t "expected a property value").
Proof.
  destruct tokens as [|ident tokens]; cbn [parse_declaration]; [discriminate|].
  destruct (type ident =? "IDENT") eqn:Ei; [|discriminate].
  apply String.eqb_eq in Ei.
  destruct (value ident) as [[|s| |]|] eqn:Ev; cbn [bind py_lower];
    try discriminate.
  - destruct (find_colon ident tokens) as [[colon rest]|e] eqn:Ef; cbn [bind].
    + apply find_colon_ok in Ef. destruct Ef as (ws & E & Hws & Hc).
      destruct (parse_value rest) as [val|e] eqn:Epv; cbn [bind].
      * destruct val as [|x val]; cbn [nonempty]; [|discriminate].
        intros H.
        assert (Ht : colon = t) by (unfold mkParseError in H; now inversion H).
        subst colon tokens. right. exists ident, ws, rest.
        split; [reflexivity|]. split; [exact Ei|]. split; [exact Hws|].
        split; [exact Hc|]. split; [now apply parse_value_empty|].
        now inversion H.
      * intros H. inversion H; subst.
        apply parse_value_slip in Epv. discriminate.
    + intros H. inversion H; subst. apply find_colon_raise in Ef.
      destruct Ef as [Ef|[Hs Ef]]; [discriminate|].
      assert (Ht : last tokens ident = t)
        by (unfold mkParseError in Ef; now inversion Ef).
      left. exists ident, tokens. rewrite last_cons, Ht.
      split; [reflexivity|]. split; [exact Ei|]. split; [exact Hs|].
      split; [reflexivity|]. rewrite Ht in Ef. exact Ef.
  - intros H. inversion H; subst.
    destruct ident; cbn [value] in Ev; discriminate.
Qed.

Lemma parse_declaration_errors_are_located_witness :
  (exists ident others,
      [Leaf (tk "IDENT" "b" 5); Leaf (tk "S" " " 6)] = ident :: others /\
      type ident = "IDENT" /\ Forall is_space others /\
      Leaf (tk "S" " " 6)
      = last [Leaf (tk "IDENT" "b" 5); Leaf (tk "S" " " 6)] ident /\
      ParseError (Leaf (tk "S" " " 6)) "Parse error at 1:6, expected ':'"
      = mkParseError (Leaf (tk "S" " " 6)) "expected ':'") \/
  (exists ident ws rest,
      [Leaf (tk "IDENT" "b" 5); Leaf (tk "S" " " 6)]
      = ident :: ws ++ Leaf (tk "S" " " 6) :: rest /\
      type ident = "IDENT" /\ Forall is_space ws /\
      type (Leaf (tk "S" " " 6)) = ":" /\ Forall is_space rest /\
      ParseError (Leaf (tk "S" " " 6)) "Parse error at 1:6, expected ':'"
      = mkParseError (Leaf (tk "S" " " 6)) "expected a property value").
Proof.
  exact (parse_declaration_errors_are_located
           [Leaf (tk "IDENT" "b" 5); Leaf (tk "S" " " 6)] (Leaf (tk "S" " " 6))
           "Parse error at 1:6, expected ':'" eq_refl).
Defined.

(** ** The parts of a block *)

Lemma split_parts_in (tokens : list node) :
  forall parts this_part part t,
    In part (split_parts parts this_part tokens) -> In t part ->
    (exists p, In p parts /\ In t p) \/ In t this_part \/ In t tokens.
Proof.
  induction tokens as [|token tokens IH]; intros parts this_part part t Hp Ht;
    cbn [split_parts] in Hp.
  - destruct (nonempty this_part); [|eauto].
    apply in_app_or in Hp. destruct Hp as [Hp|[Hp|[]]]; [eauto|].
    subst. auto.
  - destruct ((type token =? ";") && nonempty this_part).
    + destruct (IH _ _ _ _ Hp Ht) as [(p & Hin & Htp)|[[]|H]].
      * apply in_app_or in Hin. destruct Hin as [Hin|[Hin|[]]]; [eauto|].
        subst. auto.
      * right. right. now right.
    + destruct (nonempty this_part || negb (type token =? "S")).
      * destruct (IH _ _ _ _ Hp Ht) as [H|[H|H]]; [auto| |].
        -- apply in_app_or in H. destruct H as [H|[H|[]]]; [auto|].
           subst. right. right. now left.
        -- right. right. now right.
      * destruct (IH _ _ _ _ Hp Ht) as [H|[H|H]]; auto.
        right. right. now right.
Qed.

Lemma split_parts_nonempty (tokens : list node) :
  forall parts this_part,
    Forall (fun p => p <> []) parts ->
    Forall (fun p => p <> []) (split_parts parts this_part tokens).
Proof.
  induction tokens as [|token tokens IH]; intros parts this_part Hparts;
    cbn [split_parts].
  - destruct this_part; cbn [nonempty]; [assumption|].
    apply Forall_app. split; [assumption|]. constructor; [discriminate|constructor].
  - destruct this_part as [|x this_part]; cbn [nonempty andb orb].
    + rewrite andb_false_r.
      destruct (negb (type token =? "S")); now apply IH.
    + destruct (type token =? ";"); cbn [andb]; apply IH; [|assumption].
      apply Forall_app. split; [assumption|].
      constructor; [discriminate|constructor].
Qed.

Lemma split_parts_length (tokens : list node) :
  forall parts this_part,
    length (split_parts parts this_part tokens)
    <= length parts + length (filter is_semicolon tokens) + 1.
Proof.
  induction tokens as [|token tokens IH]; intros parts this_part.
  - cbn [split_parts filter].
    destruct (nonempty this_part); rewrite ?length_app; cbn [length]; lia.
  - assert (Hc : length (filter is_semicolon (token :: tokens))
                 = (if type token =? ";" then 1 else 0)
                   + length (filter is_semicolon tokens))
      by (cbn [filter]; unfold is_semicolon;
          destruct (type token =? ";"); reflexivity).
    rewrite Hc. cbn [split_parts].
    destruct (type token =? ";"); destruct (nonempty this_part);
      cbn [andb orb]; try destruct (negb (type token =? "S"));
      match goal with
      | |- context [split_parts ?p ?t tokens] => specialize (IH p t)
      end;
      rewrite ?length_app in IH; cbn [length] in IH; lia.
Qed.

(** ** The declaration list *)

Lemma parse_parts_ok (parts : list (list node)) :
  forall declarations errors r,
    parse_parts declarations errors parts = Ok r ->
    forallb recoverable parts = true.
Proof.
  induction parts as [|part parts IH]; intros declarations errors r H;
    [reflexivity|].
  cbn [parse_parts forallb] in *. unfold recoverable at 1.
  destruct (parse_declaration part) as [d|[t m| | | |]]; try discriminate;
    cbn [andb]; eapply IH; eassumption.
Qed.

Lemma parse_parts_raise (parts : list (list node)) :
  forall declarations errors e,
    parse_parts declarations errors parts = Raise e ->
    exists part,
      In part parts /\ parse_declaration part = Raise e /\
      is_parse_error e = false.
Proof.
  induction parts as [|part parts IH]; intros declarations errors e H;
    [discriminate|].
  cbn [parse_parts] in H.
  destruct (parse_declaration part) as [d|[t m| | | |]] eqn:E;
    try (apply IH in H; destruct H as (p & Hin & Hp & He);
         exists p; split; [now right|now split]);
    inversion H; subst; exists part; (split; [now left|now split]).
Qed.

Lemma parse_declaration_list_ok (tokens : list node) ds es :
  parse_declaration_list tokens = Ok (ds, es) ->
  forallb recoverable (split_parts [] [] tokens) = true /\
  ds = valid_declarations (split_parts [] [] tokens) /\
  es = parse_errors (split_parts [] [] tokens).
Proof.
  unfold parse_declaration_list. intros H.
  pose proof (parse_parts_ok _ _ _ _ H) as Hr.
  rewrite (parse_parts_isolation _ _ _ Hr) in H. inversion H. auto.
Qed.

Lemma part_in_block (tokens part : list node) (t : node) :
  In part (split_parts [] [] tokens) -> In t part -> In t tokens.
Proof.
  intros Hp Ht.
  destruct (split_parts_in _ _ _ _ _ Hp Ht) as [(p & [] & _)|[[]|H]].
  exact H.
Qed.

Lemma parse_declaration_well_formed (tokens : list node) (d : declaration) :
  parse_declaration tokens = Ok d -> well_formed_declaration d.
Proof.
  destruct tokens as [|ident tokens]; cbn [parse_declaration]; [discriminate|].
  destruct (type ident =? "IDENT"); [|discriminate].
  destruct (value ident) as [[|s| |]|]; cbn [bind py_lower]; try discriminate.
  destruct (find_colon ident tokens) as [[colon rest]|]; cbn [bind];
    [|discriminate].
  destruct (parse_value rest) as [val|] eqn:Epv; cbn [bind]; [|discriminate].
  destruct (nonempty val) eqn:En; [|discriminate].
  intros H. inversion H; subst. unfold well_formed_declaration. cbn [fst snd].
  apply parse_value_is_strip in Epv. subst val.
  split; [apply lower_no_capital|].
  split; [apply lower_idem|]. split; [now destruct (strip rest)|].
  unfold strip. split.
  - intros t Ht. apply rstrip_head in Ht. now apply lstrip_head in Ht.
  - intros t. apply rstrip_last.
Qed.

(** X10.  Every declaration that [parse_declaration_list] returns has a
    lower-case name, one in which no capital letter is left, whether A
    to Z or an accented one, and which [str.lower()] does not change, and
    a value that is not empty and neither starts nor ends with white
    space.  The value is kept as it was written: of [COLOR:Red] the name
    becomes [color] and the value stays [Red]. *)
Theorem declarations_are_well_formed (tokens : list node) ds es :
  parse_declaration_list tokens = Ok (ds, es) ->
  Forall well_formed_declaration ds.
Proof.
  intros H. apply parse_declaration_list_ok in H. destruct H as (_ & Hd & _).
  subst ds. apply Forall_forall. intros d Hd.
  unfold valid_declarations in Hd. apply in_flat_map in Hd.
  destruct Hd as (part & _ & Hd).
  destruct (parse_declaration part) as [d'|] eqn:E; [|contradiction].
  destruct Hd as [Hd|[]]. subst d'.
  eapply parse_declaration_well_formed; eassumption.
Qed.

Lemma declarations_are_well_formed_witness :
  Forall well_formed_declaration
    [("color", [Leaf (tk "IDENT" "Red" 7)]);
     (String (ascii_of_nat 233) "cole", [Leaf (num "1" 1 17)])].
Proof.
  exact (declarations_are_well_formed (regroup css_capital_names) _ _ eq_refl).
Defined.

(** X11.  Every error that [parse_declaration_list] returns is a
    [ParseError] raised on a token of the block, with the message made
    from the position of that token: either no [:] was found in a part,
    or nothing follows the [:]. *)
Theorem errors_are_located (tokens : list node) ds es :
  parse_declaration_list tokens = Ok (ds, es) ->
  Forall (located_error tokens) es.
Proof.
  intros H. apply parse_declaration_list_ok in H. destruct H as (_ & _ & He).
  subst es. apply Forall_forall. intros e He.
  unfold parse_errors in He. apply in_flat_map in He.
  destruct He as (part & Hpart & He).
  destruct (parse_declaration part) as [d|e'] eqn:E; [contradiction|].
  destruct e' as [t m| | | |]; try contradiction.
  destruct He as [He|[]]. subst e.
  apply parse_declaration_raise in E.
  destruct E as [[_ E]|[E|(t' & reason & Hin & E & Hr)]]; try discriminate.
  exists t', reason. split; [|now split].
  eapply part_in_block; eassumption.
Qed.

Lemma errors_are_located_witness :
  Forall (located_error (regroup css_missing_colon))
    [ParseError (Leaf (tk "IDENT" "b" 6)) "Parse error at 1:6, expected ':'"].
Proof.
  exact (errors_are_located (regroup css_missing_colon) _ _ eq_refl).
Defined.

Lemma recoverable_count (parts : list (list node)) :
  forallb recoverable parts = true ->
  length (valid_declarations parts) + length (parse_errors parts) = length parts.
Proof.
  induction parts as [|part parts IH]; [reflexivity|].
  cbn [forallb]. intros H. apply andb_true_iff in H. destruct H as [Hp Hps].
  specialize (IH Hps). unfold valid_declarations, parse_errors in *.
  cbn [flat_map length]. rewrite !length_app. unfold recoverable in Hp.
  destruct (parse_declaration part) as [d|[t m| | | |]]; try discriminate;
    cbn [length]; lia.
Qed.

(** X12.  Each part of a block gives one declaration or one error, and
    a [;] ends at most one part: the declarations and the errors that
    [parse_declaration_list] returns are together as many as the parts,
    which is at most one more than the [;] tokens of the block. *)
Theorem one_result_per_part (tokens : list node) ds es :
  parse_declaration_list tokens = Ok (ds, es) ->
  length ds + length es = length (split_parts [] [] tokens) /\
  length ds + length es <= length (filter is_semicolon tokens) + 1.
Proof.
  intros H. apply parse_declaration_list_ok in H. destruct H as (Hr & Hd & He).
  subst ds es. rewrite (recoverable_count _ Hr).
  split; [reflexivity|]. exact (split_parts_length tokens [] []).
Qed.

Lemma one_result_per_part_witness :
  2 + 1 = length (split_parts [] [] (regroup css_missing_colon)) /\
  2 + 1 <= length (filter is_semicolon (regroup css_missing_colon)) + 1.
Proof.
  exact (one_result_per_part (regroup css_missing_colon) _ _ eq_refl).
Defined.

Lemma parse_declaration_list_slip (tokens : list node) (e : exn) :
  parse_declaration_list tokens = Raise e -> is_slip e = true.
Proof.
  unfold parse_declaration_list. intros H.
  apply parse_parts_raise in H. destruct H as (part & Hin & H & He).
  pose proof (split_parts_nonempty tokens [] [] (Forall_nil _)) as Hne.
  rewrite Forall_forall in Hne. specialize (Hne _ Hin).
  apply parse_declaration_raise in H.
  destruct H as [[H _]|[H|(t & reason & _ & H & _)]];
    [contradiction|exact H|].
  subst e. discriminate He.
Qed.

(** X13.  [parse_declaration_list] lets no [ParseError] out and never
    hands an empty part to [parse_declaration]: when it raises, it is
    with a [NameError], an [AttributeError] or a [TypeError]. *)
Theorem declaration_list_raises_only_slips (tokens : list node) (e : exn) :
  parse_declaration_list tokens = Raise e ->
  is_slip e = true /\ is_parse_error e = false /\ e <> StopIteration.
Proof.
  intros H. apply parse_declaration_list_slip in H.
  destruct e; try discriminate H; repeat split; discriminate.
Qed.

Lemma declaration_list_raises_only_slips_witness :
  is_slip (NameError "UnexpectedToken") = true /\
  is_parse_error (NameError "UnexpectedToken") = false /\
  NameError "UnexpectedToken" <> StopIteration.
Proof.
  exact (declaration_list_raises_only_slips (regroup css_empty_declarations)
           (NameError "UnexpectedToken") eq_refl).
Defined.

Lemma split_parts_spaces (tokens : list node) :
  Forall is_space tokens -> forall parts, split_parts parts [] tokens = parts.
Proof.
  induction 1 as [|t tokens Ht _ IH]; intros parts; [reflexivity|].
  cbn [split_parts nonempty andb orb]. rewrite andb_false_r.
  unfold is_space in Ht. rewrite Ht. cbn [String.eqb negb]. apply IH.
Qed.

(** X14.  A block that is empty or holds white space only gives no
    declaration and no error. *)
Theorem empty_block_gives_nothing (tokens : list node) :
  Forall is_space tokens -> parse_declaration_list tokens = Ok ([], []).
Proof.
  intros H. unfold parse_declaration_list.
  now rewrite (split_parts_spaces tokens H).
Qed.

Lemma empty_block_gives_nothing_witness :
  parse_declaration_list [Leaf (tk "S" " " 1); Leaf (tk "S" "  " 2)] = Ok ([], []).
Proof.
  apply (empty_block_gives_nothing [Leaf (tk "S" " " 1); Leaf (tk "S" "  " 2)]).
  repeat constructor.
Defined.

(** ** Rulesets *)

Lemma validate_selector_ok (selector_parts : list node) :
  validate_selector selector_parts = Ok tt <->
  Forall (fun t => validate_any_node t "selector" = Ok tt) selector_parts.
Proof.
  induction selector_parts as [|t l IH]; cbn [validate_selector validate_any].
  - split; auto.
  - destruct (validate_any_node t "selector") as [[]|e] eqn:E; cbn [bind].
    + rewrite IH. split; [now constructor | now inversion 1].
    + split; [discriminate|]. inversion 1; subst. congruence.
Qed.

Lemma validate_selector_slip (selector_parts : list node) (e : exn) :
  validate_selector selector_parts = Raise e -> is_slip e = true.
Proof.
  induction selector_parts as [|t l IH]; cbn [validate_selector validate_any];
    [discriminate|].
  destruct (validate_any_node_outcomes t "selector") as [E|[E|E]]; rewrite E;
    cbn [bind]; [exact IH| |]; intros H; inversion H; reflexivity.
Qed.

Lemma parse_ruleset_loop_app (sel : list node) :
  forall selector_parts tokens,
    Forall (fun t => is_block t = false) sel ->
    parse_ruleset_loop selector_parts (sel ++ tokens)
    = parse_ruleset_loop (selector_parts ++ sel) tokens.
Proof.
  induction sel as [|t sel IH]; intros selector_parts tokens Hsel.
  - now rewrite app_nil_r.
  - inversion Hsel as [|? ? Ht Hsel']; subst. unfold is_block in Ht.
    cbn [app parse_ruleset_loop]. rewrite Ht, IH by auto.
    now rewrite <- app_assoc.
Qed.

(** X15.  [parse_ruleset] reads up to the first [{] token and no
    further, whether it returns or raises; when every token before it
    is accepted by [validate_any] and the content of the block parses
    as a declaration list, the result is the selector made of exactly
    those tokens, at the position of the first of them (of the block
    when there is none), with the declarations and errors of the
    block. *)
Theorem parse_ruleset_reads_one_block (sel : list node) (block : node)
        (rest : list node) :
  Forall (fun t => is_block t = false) sel ->
  is_block block = true ->
  snd (parse_ruleset_loop [] (sel ++ block :: rest)) = rest /\
  (forall c ds es,
      Forall (fun t => validate_any_node t "selector" = Ok tt) sel ->
      content block = Ok c ->
      parse_declaration_list c = Ok (ds, es) ->
      fst (parse_ruleset_loop [] (sel ++ block :: rest))
      = Ok (Some (selector_of sel block, ds, es))).
Proof.
  intros Hsel Hblock.
  rewrite parse_ruleset_loop_app by auto.
  unfold is_block in Hblock. cbn [app parse_ruleset_loop]. rewrite Hblock.
  cbn [fst snd]. split; [reflexivity|].
  intros c ds es Hv Hc Hd. apply validate_selector_ok in Hv.
  rewrite Hv, Hc. cbn [bind]. rewrite Hd. cbn [bind].
  unfold selector_of. now destruct sel.
Qed.

Lemma parse_ruleset_reads_one_block_witness :
  snd (parse_ruleset_loop []
         ([Leaf (tk "IDENT" "a" 1)]
            ++ ContainerToken "{" "{" "}" [] 1 2 :: [Leaf (tk "IDENT" "b" 4)]))
  = [Leaf (tk "IDENT" "b" 4)].
Proof.
  refine (proj1 (parse_ruleset_reads_one_block
                   [Leaf (tk "IDENT" "a" 1)] (ContainerToken "{" "{" "}" [] 1 2)
                   [Leaf (tk "IDENT" "b" 4)] _ eq_refl)).
  repeat constructor.
Defined.

Lemma parse_ruleset_loop_exhausted (tokens : list node) :
  forall selector_parts,
    Forall (fun t => is_block t = false) tokens ->
    parse_ruleset_loop selector_parts tokens = (Ok None, []).
Proof.
  induction tokens as [|t tokens IH]; intros selector_parts H; [reflexivity|].
  inversion H as [|? ? Ht H']; subst. unfold is_block in Ht.
  cbn [parse_ruleset_loop]. rewrite Ht. now apply IH.
Qed.

Lemma parse_ruleset_loop_slip (tokens : list node) :
  forall selector_parts e rest,
    parse_ruleset_loop selector_parts tokens = (Raise e, rest) ->
    is_slip e = true.
Proof.
  induction tokens as [|t tokens IH]; intros selector_parts e rest H;
    cbn [parse_ruleset_loop] in H; [discriminate|].
  destruct (type t =? "{"); [|eauto].
  inversion H as [[H1 H2]]; clear H.
  destruct (validate_selector selector_parts) as [[]|e1] eqn:Ev; cbn [bind] in H1.
  - destruct (content t) as [c|e2] eqn:Ec; cbn [bind] in H1.
    + destruct (parse_declaration_list c) as [[ds es]|e3] eqn:Ed;
        cbn [bind] in H1; [discriminate|].
      inversion H1; subst. eapply parse_declaration_list_slip; eassumption.
    + inversion H1; subst. destruct t; inversion Ec; reflexivity.
  - inversion H1; subst. eapply validate_selector_slip; eassumption.
Qed.

(** ** At-rules *)

Lemma parse_at_rule_loop_app (head_tokens : list node) :
  forall at_keyword head tokens,
    Forall (fun t => is_terminator t = false) head_tokens ->
    parse_at_rule_loop at_keyword head (head_tokens ++ tokens)
    = parse_at_rule_loop at_keyword
        (head ++ (if nonempty head then head_tokens else lstrip head_tokens))
        tokens.
Proof.
  induction head_tokens as [|t l IH]; intros at_keyword head tokens H.
  - destruct (nonempty head); cbn [lstrip app]; now rewrite app_nil_r.
  - inversion H as [|? ? Ht H']; subst. unfold is_terminator in Ht.
    cbn [app parse_at_rule_loop]. rewrite Ht.
    destruct head as [|h head]; cbn [nonempty orb lstrip].
    + destruct (type t =? "S"); cbn [negb].
      * now rewrite IH.
      * rewrite IH by assumption. cbn [app nonempty]. reflexivity.
    + rewrite IH by assumption. rewrite nonempty_snoc, <- app_assoc.
      reflexivity.
Qed.

(** X16.  [parse_at_rule] reads up to the first [;] or [{] token and no
    further.  The head is what stands before it without the leading
    white space; when that is empty the at-rule is returned, with the
    [{] token as its body or no body after a [;]; otherwise the call
    raises [AttributeError]. *)
Theorem parse_at_rule_reads_one_statement (at_keyword : string)
        (head_tokens : list node) (terminator : node) (rest : list node) :
  Forall (fun t => is_terminator t = false) head_tokens ->
  is_terminator terminator = true ->
  snd (parse_at_rule_loop at_keyword [] (head_tokens ++ terminator :: rest)) = rest /\
  (lstrip head_tokens = [] ->
   fst (parse_at_rule_loop at_keyword [] (head_tokens ++ terminator :: rest))
   = Ok (Some (AtRule at_keyword [] (body_of terminator)))) /\
  (lstrip head_tokens <> [] ->
   exists attribute,
     fst (parse_at_rule_loop at_keyword [] (head_tokens ++ terminator :: rest))
     = Raise (AttributeError attribute)).
Proof.
  intros Hhead Hterm. rewrite parse_at_rule_loop_app by assumption.
  cbn [nonempty app]. unfold is_terminator in Hterm.
  cbn [parse_at_rule_loop]. rewrite Hterm. cbn [fst snd].
  split; [reflexivity|]. split.
  - intros E. rewrite E. reflexivity.
  - intros Hne. destruct (lstrip head_tokens) as [|h head]; [contradiction|].
    destruct (validate_head_raises h head) as [attribute E].
    exists attribute. now rewrite E.
Qed.

Lemma parse_at_rule_reads_one_statement_witness :
  fst (parse_at_rule_loop "@x" []
         ([Leaf (tk "S" " " 3)] ++ Leaf (tk ";" ";" 4) :: [Leaf (tk "IDENT" "a" 5)]))
  = Ok (Some (AtRule "@x" [] None)).
Proof.
  refine (proj1 (proj2 (parse_at_rule_reads_one_statement "@x"
                          [Leaf (tk "S" " " 3)] (Leaf (tk ";" ";" 4))
                          [Leaf (tk "IDENT" "a" 5)] _ eq_refl)) eq_refl).
  repeat constructor.
Defined.

Lemma validate_head_slip (head : list node) (e : exn) :
  validate_head head = Raise e -> is_slip e = true.
Proof.
  destruct head as [|h head]; [discriminate|].
  destruct (validate_head_raises h head) as [attribute E]. rewrite E.
  intros H. inversion H. reflexivity.
Qed.

Lemma parse_at_rule_loop_slip (tokens : list node) :
  forall at_keyword head e rest,
    parse_at_rule_loop at_keyword head tokens = (Raise e, rest) ->
    is_slip e = true.
Proof.
  induction tokens as [|t tokens IH]; intros at_keyword head e rest H;
    cbn [parse_at_rule_loop] in H; [discriminate|].
  destruct (is_substring (type t) "{;").
  - inversion H as [[H1 H2]].
    destruct (validate_head head) eqn:Ev; cbn [bind] in H1; [discriminate|].
    inversion H1; subst. eapply validate_head_slip; eassumption.
  - destruct (nonempty head || negb (type t =? "S")); eauto.
Qed.

Lemma parse_at_rule_slip (token : node) (tokens : list node) e rest :
  parse_at_rule token tokens = (Raise e, rest) -> is_slip e = true.
Proof.
  unfold parse_at_rule.
  destruct (value token) as [v|e1] eqn:Ev; cbn [bind].
  - destruct v; cbn [py_lower];
      try (intros H; inversion H; reflexivity).
    apply parse_at_rule_loop_slip.
  - intros H. inversion H; subst. destruct token; inversion Ev; reflexivity.
Qed.

(** ** The stylesheet loop *)

Lemma parse_stylesheet_loop_mono (n : nat) :
  forall m rules errors tokens r,
    parse_stylesheet_loop n rules errors tokens = Some r -> n <= m ->
    parse_stylesheet_loop m rules errors tokens = Some r.
Proof.
  induction n as [|n IH]; intros m rules errors tokens r H Hle; [discriminate|].
  destruct m as [|m]; [lia|].
  destruct tokens as [|token tokens]; [exact H|].
  cbn [parse_stylesheet_loop] in *.
  destruct (negb (mem (type token) ["S"; "CDO"; "CDC"])); [|apply IH; [exact H|lia]].
  destruct (type token =? "ATKEYWORD").
  - destruct (parse_at_rule token tokens) as [[o|[]] rest]; try exact H;
      (apply IH; [exact H|lia]).
  - destruct (parse_ruleset token tokens)
      as [[[[[selector declarations] rule_errors]|]|[]] rest]; try exact H;
      (apply IH; [exact H|lia]).
Qed.

Lemma parse_stylesheet_loop_fuel (n : nat) rules errors tokens :
  length tokens < n ->
  parse_stylesheet_loop n rules errors tokens
  = parse_stylesheet_loop (S (length tokens)) rules errors tokens.
Proof.
  intros Hlen.
  destruct (parse_stylesheet_loop_enough (S (length tokens)) tokens rules errors)
    as [r H]; [lia|].
  rewrite H. apply (parse_stylesheet_loop_mono _ _ _ _ _ _ H). lia.
Qed.

Lemma prepend_prepend rules1 errors1 rules2 errors2 r :
  prepend rules1 errors1 (prepend rules2 errors2 r)
  = prepend (rules1 ++ rules2) (errors1 ++ errors2) r.
Proof.
  destruct r as [[[rules errors]|e]|]; cbn [prepend]; try reflexivity.
  now rewrite !app_assoc.
Qed.

Lemma parse_stylesheet_loop_acc (n : nat) :
  forall rules errors tokens,
    parse_stylesheet_loop n rules errors tokens
    = prepend rules errors (parse_stylesheet_loop n [] [] tokens).
Proof.
  induction n as [|n IH]; intros rules errors tokens; [reflexivity|].
  destruct tokens as [|token tokens]; cbn [parse_stylesheet_loop].
  - cbn [prepend]. now rewrite !app_nil_r.
  - destruct (negb (mem (type token) ["S"; "CDO"; "CDC"])); [|apply IH].
    destruct (type token =? "ATKEYWORD").
    + destruct (parse_at_rule token tokens) as [[o|[]] rest]; try reflexivity.
      * rewrite (IH (rules ++ [o])), (IH ([] ++ [o])), prepend_prepend.
        now rewrite app_nil_r.
      * rewrite (IH rules (errors ++ _)), (IH [] ([] ++ _)), prepend_prepend.
        now rewrite app_nil_r.
    + destruct (parse_ruleset token tokens)
        as [[[[[selector declarations] rule_errors]|]|[]] rest]; try reflexivity.
      * rewrite (IH (rules ++ _) (errors ++ _)), (IH ([] ++ _) ([] ++ _)),
          prepend_prepend. reflexivity.
      * rewrite (IH rules (errors ++ _)), (IH [] ([] ++ _)), prepend_prepend.
        now rewrite app_nil_r.
Qed.

Lemma parse_stylesheet_skip (token : node) (tokens : list node) :
  is_skipped token ->
  parse_stylesheet (token :: tokens) = parse_stylesheet tokens.
Proof.
  unfold is_skipped, parse_stylesheet. intros H.
  cbn [length parse_stylesheet_loop]. now rewrite H.
Qed.

(** X17.  White space and the comment markers CDO and CDC before a
    statement change nothing to the result of [parse_stylesheet]. *)
Theorem parse_stylesheet_skips_white_space (skipped tokens : list node) :
  Forall is_skipped skipped ->
  parse_stylesheet (skipped ++ tokens) = parse_stylesheet tokens.
Proof.
  induction 1 as [|t skipped Ht _ IH]; [reflexivity|].
  cbn [app]. now rewrite parse_stylesheet_skip.
Qed.

Lemma parse_stylesheet_skips_white_space_witness :
  parse_stylesheet ([Leaf (tk "S" " " 1); Leaf (tk "CDO" "<!--" 2)]
                      ++ regroup css_unterminated)
  = parse_stylesheet (regroup css_unterminated).
Proof.
  apply (parse_stylesheet_skips_white_space
           [Leaf (tk "S" " " 1); Leaf (tk "CDO" "<!--" 2)]).
  repeat constructor.
Defined.

Lemma parse_stylesheet_loop_ruleset (n : nat) rules errors token tokens
      selector declarations rule_errors rest :
  mem (type token) ["S"; "CDO"; "CDC"] = false ->
  (type token =? "ATKEYWORD") = false ->
  parse_ruleset token tokens = (Ok (Some (selector, declarations, rule_errors)), rest) ->
  parse_stylesheet_loop (S n) rules errors (token :: tokens)
  = parse_stylesheet_loop n (rules ++ [Some (Ruleset selector declarations)])
      (errors ++ rule_errors) rest.
Proof.
  intros Hskip Hat H. cbn [parse_stylesheet_loop].
  now rewrite Hskip, Hat, H.
Qed.

Lemma parse_stylesheet_loop_at_rule (n : nat) rules errors token tokens r rest :
  type token = "ATKEYWORD" ->
  parse_at_rule token tokens = (Ok r, rest) ->
  parse_stylesheet_loop (S n) rules errors (token :: tokens)
  = parse_stylesheet_loop n (rules ++ [r]) errors rest.
Proof.
  intros Hat H. cbn [parse_stylesheet_loop]. now rewrite Hat, H.
Qed.

(** X18.  Rulesets are parsed one after the other: when [parse_ruleset]
    returns a ruleset for the first statement, the result of
    [parse_stylesheet] is that ruleset and its errors followed by the
    result for the tokens the ruleset left. *)
Theorem parse_stylesheet_after_ruleset (token : node) (tokens rest : list node)
        selector declarations rule_errors :
  mem (type token) ["S"; "CDO"; "CDC"] = false ->
  (type token =? "ATKEYWORD") = false ->
  parse_ruleset token tokens = (Ok (Some (selector, declarations, rule_errors)), rest) ->
  parse_stylesheet (token :: tokens)
  = prepend [Some (Ruleset selector declarations)] rule_errors
            (parse_stylesheet rest).
Proof.
  intros Hskip Hat H. unfold parse_stylesheet. cbn [length].
  rewrite (parse_stylesheet_loop_ruleset _ _ _ _ _ _ _ _ _ Hskip Hat H).
  rewrite parse_stylesheet_loop_acc, parse_stylesheet_loop_fuel;
    [reflexivity|].
  apply parse_ruleset_length in H. lia.
Qed.

Lemma parse_stylesheet_after_ruleset_witness :
  parse_stylesheet (regroup css_ruleset_then_at_rule)
  = prepend [Some (Ruleset (ContainerToken "SELECTOR" "" ""
                              [Leaf (tk "IDENT" "a" 1)] 1 1) [])] []
            (parse_stylesheet [Leaf (tk "S" " " 4); Leaf (tk "ATKEYWORD" "@X" 5)]).
Proof.
  exact (parse_stylesheet_after_ruleset
           (Leaf (tk "IDENT" "a" 1))
           [ContainerToken "{" "{" "}" [] 1 2; Leaf (tk "S" " " 4);
            Leaf (tk "ATKEYWORD" "@X" 5)]
           [Leaf (tk "S" " " 4); Leaf (tk "ATKEYWORD" "@X" 5)]
           _ _ _ eq_refl eq_refl eq_refl).
Defined.

(** X19.  At-rules are parsed one after the other: what [parse_at_rule]
    returns for the first statement is the first rule, followed by the
    result for the tokens the at-rule left. *)
Theorem parse_stylesheet_after_at_rule (token : node) (tokens rest : list node)
        (r : option rule) :
  type token = "ATKEYWORD" ->
  parse_at_rule token tokens = (Ok r, rest) ->
  parse_stylesheet (token :: tokens) = prepend [r] [] (parse_stylesheet rest).
Proof.
  intros Hat H. unfold parse_stylesheet. cbn [length].
  rewrite (parse_stylesheet_loop_at_rule _ _ _ _ _ _ _ Hat H).
  rewrite parse_stylesheet_loop_acc, parse_stylesheet_loop_fuel;
    [reflexivity|].
  apply parse_at_rule_length in H. lia.
Qed.

Lemma parse_stylesheet_after_at_rule_witness :
  parse_stylesheet [Leaf (tk "ATKEYWORD" "@X" 1); Leaf (tk ";" ";" 3);
                    Leaf (tk "S" " " 4)]
  = prepend [Some (AtRule "@x" [] None)] []
            (parse_stylesheet [Leaf (tk "S" " " 4)]).
Proof.
  exact (parse_stylesheet_after_at_rule
           (Leaf (tk "ATKEYWORD" "@X" 1))
           [Leaf (tk ";" ";" 3); Leaf (tk "S" " " 4)] [Leaf (tk "S" " " 4)]
           _ eq_refl eq_refl).
Defined.

(** ** What the stylesheet parser raises *)

Lemma parse_stylesheet_loop_slip (n : nat) :
  forall rules errors tokens e,
    parse_stylesheet_loop n rules errors tokens = Some (Raise e) ->
    is_slip e = true.
Proof.
  induction n as [|n IH]; intros rules errors tokens e H; [discriminate|].
  destruct tokens as [|token tokens]; cbn [parse_stylesheet_loop] in H;
    [discriminate|].
  destruct (negb (mem (type token) ["S"; "CDO"; "CDC"])); [|eauto].
  destruct (type token =? "ATKEYWORD").
  - destruct (parse_at_rule token tokens) as [[o|e'] rest] eqn:E; [eauto|].
    apply parse_at_rule_slip in E.
    destruct e'; try discriminate E; now inversion H.
  - destruct (parse_ruleset token tokens) as [[o|e'] rest] eqn:E.
    + destruct o as [[[selector declarations] rule_errors]|]; [eauto|].
      now inversion H.
    + apply parse_ruleset_loop_slip in E.
      destruct e'; try discriminate E; now inversion H.
Qed.

(** X20.  [parse_stylesheet] lets no [ParseError] out: when it raises,
    it is with a [NameError], an [AttributeError] or a [TypeError]. *)
Theorem parse_stylesheet_raises_only_slips (tokens : list node) (e : exn) :
  parse_stylesheet tokens = Some (Raise e) ->
  is_slip e = true /\ is_parse_error e = false /\ e <> StopIteration.
Proof.
  intros H. apply parse_stylesheet_loop_slip in H.
  destruct e; try discriminate H; repeat split; discriminate.
Qed.

Lemma parse_stylesheet_raises_only_slips_witness :
  is_slip (AttributeError "type") = true /\
  is_parse_error (AttributeError "type") = false /\
  AttributeError "type" <> StopIteration.
Proof.
  exact (parse_stylesheet_raises_only_slips (regroup css_import)
           (AttributeError "type") eq_refl).
Defined.

(** X21.  A statement that is not an at-rule and is followed by no [{]
    token makes [parse_stylesheet] raise [TypeError]: [parse_ruleset]
    reads to the end and returns [None], which cannot be unpacked. *)
Theorem selector_without_block_raises (token : node) (tokens : list node) :
  mem (type token) ["S"; "CDO"; "CDC"] = false ->
  (type token =? "ATKEYWORD") = false ->
  Forall (fun t => is_block t = false) (token :: tokens) ->
  parse_ruleset token tokens = (Ok None, []) /\
  parse_stylesheet (token :: tokens)
  = Some (Raise (TypeError "cannot unpack non-iterable NoneType object")).
Proof.
  intros Hskip Hat Hb.
  assert (E : parse_ruleset token tokens = (Ok None, []))
    by (now apply parse_ruleset_loop_exhausted).
  split; [exact E|].
  unfold parse_stylesheet. cbn [length parse_stylesheet_loop].
  now rewrite Hskip, Hat, E.
Qed.

Lemma selector_without_block_raises_witness :
  parse_stylesheet [Leaf (tk "IDENT" "a" 1); Leaf (tk "S" " " 2)]
  = Some (Raise (TypeError "cannot unpack non-iterable NoneType object")).
Proof.
  refine (proj2 (selector_without_block_raises (Leaf (tk "IDENT" "a" 1))
                   [Leaf (tk "S" " " 2)] eq_refl eq_refl _)).
  repeat constructor.
Defined.

(** ** Where rules and errors come from *)

Lemma parse_ruleset_loop_ok (tokens : list node) :
  forall selector_parts selector ds es rest,
    parse_ruleset_loop selector_parts tokens = (Ok (Some (selector, ds, es)), rest) ->
    exists pre block c,
      tokens = pre ++ block :: rest /\
      is_block block = true /\
      validate_selector (selector_parts ++ pre) = Ok tt /\
      selector = selector_of (selector_parts ++ pre) block /\
      content block = Ok c /\
      parse_declaration_list c = Ok (ds, es).
Proof.
  induction tokens as [|t tokens IH]; intros selector_parts selector ds es rest H;
    cbn [parse_ruleset_loop] in H; [discriminate|].
  destruct (type t =? "{") eqn:Et.
  - inversion H as [[H1 H2]]; clear H. subst rest.
    destruct (validate_selector selector_parts) as [[]|] eqn:Ev;
      cbn [bind] in H1; [|discriminate].
    destruct (content t) as [c|] eqn:Ec; cbn [bind] in H1; [|discriminate].
    destruct (parse_declaration_list c) as [[ds' es']|] eqn:Ed;
      cbn [bind] in H1; [|discriminate].
    inversion H1; subst.
    exists [], t, c. rewrite app_nil_r. unfold selector_of.
    repeat split; auto.
  - apply IH in H.
    destruct H as (pre & block & c & E & Hb & Hv & Hs & Hc & Hd).
    exists (t :: pre), block, c. rewrite <- app_assoc in Hv, Hs.
    subst tokens. repeat split; auto.
Qed.

Lemma parse_at_rule_loop_incl (tokens : list node) :
  forall at_keyword head r rest,
    parse_at_rule_loop at_keyword head tokens = (r, rest) ->
    incl rest tokens.
Proof.
  induction tokens as [|t tokens IH]; intros at_keyword head r rest H;
    cbn [parse_at_rule_loop] in H.
  - inversion H. apply incl_refl.
  - destruct (is_substring (type t) "{;").
    + inversion H; subst. apply incl_tl, incl_refl.
    + destruct (nonempty head || negb (type t =? "S"));
        apply IH in H; now apply incl_tl.
Qed.

Lemma parse_at_rule_incl (token : node) (tokens : list node) r rest :
  parse_at_rule token tokens = (r, rest) -> incl rest tokens.
Proof.
  unfold parse_at_rule. destruct (bind (value token) _).
  - apply parse_at_rule_loop_incl.
  - intros H. inversion H. apply incl_refl.
Qed.

Lemma parse_ruleset_loop_incl (tokens : list node) :
  forall selector_parts r rest,
    parse_ruleset_loop selector_parts tokens = (r, rest) ->
    incl rest tokens.
Proof.
  induction tokens as [|t tokens IH]; intros selector_parts r rest H;
    cbn [parse_ruleset_loop] in H.
  - inversion H. apply incl_refl.
  - destruct (type t =? "{").
    + inversion H; subst. apply incl_tl, incl_refl.
    + apply IH in H. now apply incl_tl.
Qed.

Lemma parse_at_rule_loop_not_ruleset (tokens : list node) :
  forall at_keyword head selector declarations rest,
    parse_at_rule_loop at_keyword head tokens
    = (Ok (Some (Ruleset selector declarations)), rest) -> False.
Proof.
  induction tokens as [|t tokens IH];
    intros at_keyword head selector declarations rest H;
    cbn [parse_at_rule_loop] in H; [discriminate|].
  destruct (is_substring (type t) "{;").
  - destruct (validate_head head); cbn [bind] in H; discriminate.
  - destruct (nonempty head || negb (type t =? "S")); eauto.
Qed.

Lemma parse_at_rule_not_ruleset (token : node) (tokens : list node)
      selector declarations rest :
  parse_at_rule token tokens = (Ok (Some (Ruleset selector declarations)), rest) ->
  False.
Proof.
  unfold parse_at_rule. destruct (bind (value token) _); [|discriminate].
  apply parse_at_rule_loop_not_ruleset.
Qed.

Section Provenance.

Variable all : list node.

Lemma parse_ruleset_provenance (token : node) (tokens : list node)
      selector ds es rest :
  incl (token :: tokens) all ->
  parse_ruleset token tokens = (Ok (Some (selector, ds, es)), rest) ->
  ruleset_of all (Some (Ruleset selector ds)) /\ Forall (error_of all) es.
Proof.
  intros Hincl H. unfold parse_ruleset in H. apply parse_ruleset_loop_ok in H.
  destruct H as (pre & block & c & E & Hb & Hv & Hs & Hc & Hd).
  cbn [app] in Hv, Hs.
  assert (Hin : In block all)
    by (apply Hincl; rewrite E; apply in_or_app; right; now left).
  split.
  - exists pre, block, c, es. repeat split; auto.
    + intros x Hx. apply Hincl. rewrite E. apply in_or_app. now left.
    + now apply validate_selector_ok.
  - pose proof (errors_located := parse_declaration_list_ok _ _ _ Hd).
    destruct errors_located as (_ & _ & He).
    apply Forall_forall. intros e Hine.
    exists block, c. repeat split; auto.
    subst es. unfold parse_errors in Hine. apply in_flat_map in Hine.
    destruct Hine as (part & Hpart & Hine).
    destruct (parse_declaration part) as [d|e'] eqn:Ep; [contradiction|].
    destruct e' as [t m| | | |]; try contradiction.
    destruct Hine as [Hine|[]]. subst e.
    apply parse_declaration_raise in Ep.
    destruct Ep as [[_ Ep]|[Ep|(t' & reason & Hint & Ep & Hr)]];
      try discriminate.
    exists t', reason. split; [|now split].
    eapply part_in_block; eassumption.
Qed.

Lemma parse_stylesheet_loop_provenance (n : nat) :
  forall rules errors tokens rules' errors',
    incl tokens all ->
    Forall (ruleset_of all) rules -> Forall (error_of all) errors ->
    parse_stylesheet_loop n rules errors tokens = Some (Ok (rules', errors')) ->
    Forall (ruleset_of all) rules' /\ Forall (error_of all) errors'.
Proof.
  induction n as [|n IH];
    intros rules errors tokens rules' errors' Hincl Hr He H; [discriminate|].
  destruct tokens as [|token tokens]; cbn [parse_stylesheet_loop] in H.
  - inversion H; subst. auto.
  - assert (Htl : incl tokens all) by (intros x Hx; apply Hincl; now right).
    destruct (negb (mem (type token) ["S"; "CDO"; "CDC"])); [|eauto].
    destruct (type token =? "ATKEYWORD").
    + destruct (parse_at_rule token tokens) as [[o|e'] rest] eqn:E.
      * pose proof (parse_at_rule_incl _ _ _ _ E) as Hrest.
        refine (IH _ _ _ _ _ _ _ He H);
          [intros x Hx; apply Htl, Hrest, Hx|].
        apply Forall_app. split; [assumption|].
        constructor; [|constructor].
        destruct o as [[at_keyword head body|selector declarations]|];
          try exact I.
        apply parse_at_rule_not_ruleset in E. contradiction.
      * apply parse_at_rule_slip in E.
        destruct e'; try discriminate E; discriminate H.
    + destruct (parse_ruleset token tokens) as [[o|e'] rest] eqn:E.
      * destruct o as [[[selector declarations] rule_errors]|];
          [|discriminate].
        pose proof (parse_ruleset_loop_incl _ _ _ _ E) as Hrest.
        destruct (parse_ruleset_provenance _ _ _ _ _ _ Hincl E) as [Hrule Herr].
        refine (IH _ _ _ _ _ _ _ _ H).
        -- intros x Hx. apply Hincl, Hrest, Hx.
        -- apply Forall_app. split; [assumption|]. now constructor.
        -- apply Forall_app. now split.
      * apply parse_ruleset_loop_slip in E.
        destruct e'; try discriminate E; discriminate H.
Qed.

End Provenance.

(** X22.  Every error in the result of [parse_stylesheet] was recorded
    for a declaration: it is a [ParseError] raised on a token inside one
    of the [{] blocks of the stylesheet. *)
Theorem stylesheet_errors_come_from_blocks (tokens : list node) rules errors :
  parse_stylesheet tokens = Some (Ok (rules, errors)) ->
  Forall (error_of tokens) errors.
Proof.
  intros H.
  exact (proj2 (parse_stylesheet_loop_provenance tokens _ _ _ _ _ _
                  (incl_refl _) (Forall_nil _) (Forall_nil _) H)).
Qed.

Lemma stylesheet_errors_come_from_blocks_witness :
  Forall (error_of (regroup css_bad_declaration))
    [ParseError (Leaf (tk "S" " " 6)) "Parse error at 1:6, expected ':'"].
Proof.
  exact (stylesheet_errors_come_from_blocks (regroup css_bad_declaration)
           _ _ eq_refl).
Defined.

(** X23.  Every ruleset in the result of [parse_stylesheet] was made
    from a [{] block of the stylesheet: its declarations are those of the
    content of the block, and its selector holds tokens of the
    stylesheet that [validate_any] all accepts. *)
Theorem stylesheet_rulesets_come_from_blocks (tokens : list node) rules errors :
  parse_stylesheet tokens = Some (Ok (rules, errors)) ->
  Forall (ruleset_of tokens) rules.
Proof.
  intros H.
  exact (proj1 (parse_stylesheet_loop_provenance tokens _ _ _ _ _ _
                  (incl_refl _) (Forall_nil _) (Forall_nil _) H)).
Qed.

Lemma stylesheet_rulesets_come_from_blocks_witness :
  Forall (ruleset_of (regroup css_unterminated))
    [Some (Ruleset
             (ContainerToken "SELECTOR" "" ""
                [Leaf (tk "IDENT" "a" 1); Leaf (tk "S" " " 2)] 1 1)
             [("color", [Leaf (tk "IDENT" "red" 12)])])].
Proof.
  exact (stylesheet_rulesets_come_from_blocks (regroup css_unterminated) _ _ eq_refl).
Defined.

(** ** Well-bracketed input *)

Lemma grouped_fuel (stop_at : option string) (tokens : list Token)
      (out : list node) :
  grouped stop_at tokens out ->
  forall tail out_tail rest n,
    regroup_fuel n tail stop_at = Some (out_tail, rest) ->
    exists m,
      regroup_fuel m (tokens ++ tail) stop_at = Some (out ++ out_tail, rest).
Proof.
  induction 1 as [stop_at
                 |stop_at t tokens out Hstop Hpairs _ IH
                 |stop_at opener closer end_ body tokens c out
                    Hstop Hpairs _ IHbody Hcloser _ IH];
    intros tail out_tail rest n Htail.
  - now exists n.
  - destruct (IH _ _ _ _ Htail) as [m Hm].
    exists (S m). cbn [app].
    now rewrite (regroup_fuel_leaf _ _ _ _ Hstop Hpairs), Hm.
  - destruct (IH _ _ _ _ Htail) as [m Hm].
    assert (Hclose : regroup_fuel 1 (closer :: tokens ++ tail) (Some end_)
                     = Some ([], tokens ++ tail))
      by (cbn [regroup_fuel is_stop]; now rewrite Hcloser, String.eqb_refl).
    destruct (IHbody _ _ _ _ Hclose) as [m1 Hm1].
    rewrite app_nil_r in Hm1.
    exists (S (Nat.max m1 m)).
    cbn [app]. rewrite <- app_assoc. cbn [app].
    rewrite (regroup_fuel_opener _ _ _ _ _ Hstop Hpairs).
    rewrite (regroup_fuel_mono _ (Nat.max m1 m) _ _ _ Hm1) by lia.
    now rewrite (regroup_fuel_mono _ (Nat.max m1 m) _ _ _ Hm) by lia.
Qed.

(** X24.  On input in which every opening token has its closing token,
    [regroup] builds the tree the pairs describe, and goes on with what
    follows as if it stood alone. *)
Theorem regroup_well_bracketed (tokens : list Token) (out : list node)
        (tail : list Token) :
  grouped None tokens out ->
  regroup (tokens ++ tail) = out ++ regroup tail.
Proof.
  intros H. destruct (regroup_fuel_total tail) as [rest Htail].
  destruct (grouped_fuel _ _ _ H _ _ _ _ Htail) as [m Hm].
  exact (regroup_of_fuel _ _ _ _ Hm).
Qed.

Lemma regroup_well_bracketed_witness :
  regroup ([tk "(" "(" 1; tk "IDENT" "a" 2; tk "]" "]" 3; tk ")" ")" 4]
             ++ [tk "IDENT" "b" 5])
  = [ContainerToken "(" "(" ")"
       [Leaf (tk "IDENT" "a" 2); Leaf (tk "]" "]" 3)] 1 1]
      ++ regroup [tk "IDENT" "b" 5].
Proof.
  apply (regroup_well_bracketed
           [tk "(" "(" 1; tk "IDENT" "a" 2; tk "]" "]" 3; tk ")" ")" 4]
           [ContainerToken "(" "(" ")"
              [Leaf (tk "IDENT" "a" 2); Leaf (tk "]" "]" 3)] 1 1]
           [tk "IDENT" "b" 5]).
  apply (grouped_pair None (tk "(" "(" 1) (tk ")" ")" 4) ")"
           [tk "IDENT" "a" 2; tk "]" "]" 3] []
           [Leaf (tk "IDENT" "a" 2); Leaf (tk "]" "]" 3)] []);
    try reflexivity; [|apply grouped_nil].
  apply grouped_leaf; try reflexivity.
  apply grouped_leaf; try reflexivity.
  apply grouped_nil.
Defined.

(** ** The parts of a block, again *)

Lemma split_parts_ok (tokens : list node) :
  forall parts this_part,
    Forall part_ok parts ->
    this_part = [] \/ part_ok this_part ->
    Forall part_ok (split_parts parts this_part tokens).
Proof.
  induction tokens as [|token tokens IH]; intros parts this_part Hparts Hthis;
    cbn [split_parts].
  - destruct this_part as [|x this_part]; cbn [nonempty]; [assumption|].
    destruct Hthis as [Hthis|Hthis]; [discriminate|].
    apply Forall_app. split; [assumption|]. now constructor.
  - destruct this_part as [|x this_part]; cbn [nonempty andb orb].
    + rewrite andb_false_r.
      destruct (type token =? "S") eqn:Es; cbn [negb].
      * apply IH; auto.
      * apply IH; [assumption|]. right. cbn [app part_ok].
        apply String.eqb_neq in Es. split; [assumption|constructor].
    + destruct Hthis as [Hthis|Hthis]; [discriminate|].
      destruct (type token =? ";") eqn:Ec; cbn [andb].
      * apply IH; [|now left]. apply Forall_app. split; [assumption|].
        now constructor.
      * apply IH; [assumption|]. right. cbn [app part_ok] in *.
        destruct Hthis as [Hx Hothers]. split; [assumption|].
        apply Forall_app. split; [assumption|]. now constructor.
Qed.

(** X25.  Every part that [parse_declaration_list] hands to
    [parse_declaration] is not empty, does not start with white space
    and holds no [;] token after its first token, and all its tokens
    are tokens of the block. *)
Theorem parts_are_well_formed (tokens : list node) :
  Forall part_ok (split_parts [] [] tokens) /\
  (forall part t, In part (split_parts [] [] tokens) -> In t part -> In t tokens).
Proof.
  split.
  - apply split_parts_ok; [constructor|now left].
  - intros part t. apply part_in_block.
Qed.

(** ** The "any" production on grouped tokens *)

Lemma validate_each_grouped (tokens : list node) (context : string) :
  Forall (fun t => shaped t = true ->
                   forall ctx, validate_any_node t ctx = Ok tt \/
                               validate_any_node t ctx = Raise UnexpectedToken)
         tokens ->
  forallb shaped tokens = true ->
  validate_each tokens context = Ok tt \/
  validate_each tokens context = Raise UnexpectedToken.
Proof.
  induction 1 as [|t tokens Ht _ IH]; cbn [validate_each forallb]; [auto|].
  intros Hs. apply andb_true_iff in Hs. destruct Hs as [Hst Hstokens].
  destruct (Ht Hst context) as [E|E]; rewrite E; cbn [bind]; auto.
Qed.

(** X26.  On a token of a grouped tree [validate_any] never fails on a
    missing attribute: it returns, or raises the [NameError] of the
    undefined name [UnexpectedToken]. *)
Theorem validate_any_on_grouped_tokens (token : node) :
  shaped token = true ->
  forall context,
    validate_any_node token context = Ok tt \/
    validate_any_node token context = Raise (NameError "UnexpectedToken").
Proof.
  induction token as [t|type_ css_start css_end c l col IH
                      |type_ css_start css_end name c l col IH]
    using node_ind_all; intros Hs context; rewrite validate_any_node_eq;
    cbn [type content bind shaped] in *.
  - apply negb_true_iff in Hs. rewrite (not_opener_not_group _ Hs).
    destruct (negb (mem (t_type t) simple_types)); auto.
  - apply andb_true_iff in Hs. destruct Hs as [_ Hc].
    destruct (mem type_ ["FUNCTION"; "("; "["]).
    + now apply validate_each_grouped.
    + destruct (negb (mem type_ simple_types)); auto.
  - apply andb_true_iff in Hs. destruct Hs as [_ Hc].
    destruct (mem type_ ["FUNCTION"; "("; "["]).
    + now apply validate_each_grouped.
    + destruct (negb (mem type_ simple_types)); auto.
Qed.

Lemma validate_any_on_grouped_tokens_witness :
  validate_any_node (ContainerToken "{" "{" "}" [] 1 1) "selector" = Ok tt \/
  validate_any_node (ContainerToken "{" "{" "}" [] 1 1) "selector"
  = Raise (NameError "UnexpectedToken").
Proof.
  exact (validate_any_on_grouped_tokens (ContainerToken "{" "{" "}" [] 1 1)
           eq_refl "selector").
Defined.

(** ** The "block" production on grouped tokens *)

Lemma shaped_block_has_no_value (t : node) :
  shaped t = true -> is_block t = true ->
  value t = Raise (AttributeError "value").
Proof.
  destruct t as [leaf| |]; cbn [shaped value]; try reflexivity.
  unfold is_block, is_opener, pairs. cbn [type]. intros Hs Hb.
  apply String.eqb_eq in Hb. rewrite Hb in Hs. discriminate Hs.
Qed.

(** X27.  On a list of grouped tokens [validate_block] returns exactly
    when the list holds no [{] token and each of its tokens is a [;], an
    at-keyword or a token that [validate_any] accepts. *)
Theorem validate_block_on_grouped_tokens (tokens : list node) (context : string) :
  forallb shaped tokens = true ->
  (validate_block (OList tokens) context = Ok tt <->
   Forall (fun t => is_block t = false /\
                    (mem (type t) [";"; "ATKEYWORD"] = true \/
                     validate_any_node t context = Ok tt)) tokens).
Proof.
  cbn [validate_block].
  induction tokens as [|t tokens IH]; cbn [forallb validate_block_list].
  - split; auto.
  - intros Hs. apply andb_true_iff in Hs. destruct Hs as [Hst Hstokens].
    specialize (IH Hstokens).
    destruct (type t =? "{") eqn:Eb.
    + rewrite (shaped_block_has_no_value t Hst Eb). cbn [bind].
      split; [discriminate|]. inversion 1 as [|? ? [Hb _] _]; subst.
      unfold is_block in Hb. congruence.
    + destruct (mem (type t) [";"; "ATKEYWORD"]) eqn:Em; cbn [negb bind].
      * rewrite IH. split; [constructor; auto | now inversion 1].
      * cbn [validate_any].
        destruct (validate_any_node t context) as [[]|e] eqn:Ev; cbn [bind].
        -- rewrite IH. split; [constructor; auto | now inversion 1].
        -- split; [discriminate|]. inversion 1 as [|? ? [_ [Hm|Hv]] _]; subst;
             congruence.
Qed.

Lemma validate_block_on_grouped_tokens_witness :
  validate_block
    (OList [Leaf (tk "ATKEYWORD" "@x" 1); Leaf (tk ";" ";" 3);
            Leaf (tk "IDENT" "a" 4)]) "property value" = Ok tt.
Proof.
  apply (validate_block_on_grouped_tokens
           [Leaf (tk "ATKEYWORD" "@x" 1); Leaf (tk ";" ";" 3);
            Leaf (tk "IDENT" "a" 4)] "property value" eq_refl).
  constructor; [split; [reflexivity|left; reflexivity]|].
  constructor; [split; [reflexivity|left; reflexivity]|].
  constructor; [split; [reflexivity|right; reflexivity]|].
  constructor.
Defined.
